(** * td-design charts: the single-chart wrapper and its configuration merge

    A shallow embedding of [packages/charts/src/baseUtils/chart/index.ts]:
    [mergeConfig], [formatMergeConfig] and the class [SingleChartHOC] with
    its [render] method, followed by the properties proved of them.

    How the program is modelled.

    - Configurations and data sets are untyped JavaScript values.  They are
      trees ([value]): [undefined], [null], booleans, numbers, strings,
      arrays and records; a record keeps its properties in insertion
      order.  Numbers are integers: the code only tests them for zero and
      compares them.  The order in which JavaScript lists integer-like
      property names is not modelled; the properties of merged records are
      stated through lookups, which do not depend on it.
    - A property read [o[key]] finds an own property or goes up the
      prototype chain.  What the built-in prototypes hold is not in the
      repository; it is a parameter of the model ([Realm]): the names under
      which the prototypes hold a function, the names under which
      [Object.prototype] holds an accessor ([__proto__] in ECMAScript) and
      what reading a property of a built-in object yields.  Built-in
      objects are known by their identity and kind and have no enumerable
      own property.  Data holds none of them, but a read may yield one
      ([operand]).
    - An assignment to a name with an accessor runs the setter and creates
      no property.  The model describes the own properties of the new
      object; its prototype, which the setter of [__proto__] may replace,
      is not followed any further.
    - A thrown exception is an outcome ([Throw]); [TypeError] is what a
      property read on [null] or [undefined] raises, [RangeError] what an
      exhausted call stack raises.
    - The functions injected into [SingleChartHOC] and the two methods of a
      chart instance are arbitrary functions over an abstract outside
      world; they may change it and may raise.  They do not reach the
      private arrays of the wrapper, do not call back into [render], and
      the data values handed over are not mutated in place afterwards.
      Every call that leaves the wrapper is recorded in a trace, so that
      one can speak of what was called, how often and in which order.
    - Mount targets and chart instances are known by their identity.
    - [mergeConfig] is embedded a second time over an explicit heap of
      objects (module [Heap]), to speak about allocation and mutation, and
      that model is proved to compute what the tree model computes. *)

From Stdlib Require Import List String Ascii ZArith Bool Arith Lia Permutation.
From Stdlib Require Import DecimalString DecimalNat.
Import ListNotations.
Local Open Scope string_scope.

Set Warnings "-register-all".

(** ** JavaScript values *)

Inductive value : Type :=
| VUndef
| VNull
| VBool (b : bool)
| VNum (n : Z)
| VStr (s : string)
| VArr (elems : list value)
| VObj (props : list (string * value)).

(** Exceptions that the modelled code can raise or let through. *)
Inductive exn : Type :=
| TypeError
| RangeError
| Thrown (payload : value).

Inductive outcome (A : Type) : Type :=
| Ok (a : A)
| Throw (e : exn).

Arguments Ok {A} a.
Arguments Throw {A} e.

Definition obind {A B} (m : outcome A) (k : A -> outcome B) : outcome B :=
  match m with
  | Ok a => k a
  | Throw e => Throw e
  end.

Declare Scope js_scope.
Delimit Scope js_scope with js.
Notation "'let?' x ':=' m 'in' k" := (obind m (fun x => k))
  (at level 10, x name, m at level 100, k at level 200) : js_scope.
Local Open Scope js_scope.

(** [ToBoolean]: what [a && b] and [a || b] test. *)
Definition truthy (v : value) : bool :=
  match v with
  | VUndef | VNull => false
  | VBool b => b
  | VNum n => negb (n =? 0)%Z
  | VStr s => negb (s =? "")
  | VArr _ | VObj _ => true
  end.

(** [typeof v === 'object'] *)
Definition typeof_object (v : value) : bool :=
  match v with
  | VNull | VArr _ | VObj _ => true
  | _ => false
  end.

(** [Array.isArray(v)] *)
Definition isArray (v : value) : bool :=
  match v with
  | VArr _ => true
  | _ => false
  end.

Definition is_record (v : value) : bool :=
  match v with
  | VObj _ => true
  | _ => false
  end.

Definition nullish (v : value) : bool :=
  match v with
  | VUndef | VNull => true
  | _ => false
  end.

(** ** Properties of a value *)

Section Properties.

Context {A : Type}.

Fixpoint assoc_get (key : string) (ps : list (string * A)) : option A :=
  match ps with
  | [] => None
  | (k, v) :: ps' => if k =? key then Some v else assoc_get key ps'
  end.

(** [obj[key] = v] on a plain object: an existing property keeps its place,
    a new one goes last. *)
Fixpoint assoc_set (key : string) (v : A) (ps : list (string * A))
  : list (string * A) :=
  match ps with
  | [] => [(key, v)]
  | (k, w) :: ps' =>
      if k =? key then (k, v) :: ps' else (k, w) :: assoc_set key v ps'
  end.

Definition index_key (i : nat) : string :=
  NilEmpty.string_of_uint (Nat.to_uint i).

(** The elements of an array (the characters of a string) as properties
    named by their index. *)
Fixpoint indexed (i : nat) (l : list A) : list (string * A) :=
  match l with
  | [] => []
  | x :: l' => (index_key i, x) :: indexed (S i) l'
  end.

(** [Object.keys(obj)] *)
Definition keys (ps : list (string * A)) : list string := map fst ps.

(** The spread [{...target, ...source}] of an object literal: every own
    property of the source is defined on the new object, in order. *)
Definition assign_props (src target : list (string * A))
  : list (string * A) :=
  fold_left (fun acc kv => assoc_set (fst kv) (snd kv) acc) src target.

(** [obj[key] = v] as [Object.assign] does it, with [[Set]]: where the
    object has no property of this name and its prototype has a setter for
    it ([skip]), the setter runs and no property is created. *)
Definition assign_prop (skip : string -> bool) (acc : list (string * A))
    (kv : string * A) : list (string * A) :=
  if skip (fst kv) && negb (existsb (String.eqb (fst kv)) (keys acc))
  then acc
  else assoc_set (fst kv) (snd kv) acc.

(** One source of [Object.assign(target, source)]: every own property of
    the source is assigned on the target, in order. *)
Definition assign_set (skip : string -> bool) (src target : list (string * A))
  : list (string * A) :=
  fold_left (assign_prop skip) src target.

End Properties.

Fixpoint chars (s : string) : list string :=
  match s with
  | EmptyString => []
  | String c s' => String c EmptyString :: chars s'
  end.

Definition props_t : Type := list (string * value).

Definition field (ps : props_t) (key : string) : value :=
  match assoc_get key ps with
  | Some v => v
  | None => VUndef
  end.

(** The own enumerable string-keyed properties of a value, as
    [Object.assign], [Object.keys] and object spread see them: the
    properties of a record, the elements of an array and the characters of
    a string under their indices, nothing for the other primitives. *)
Definition own_props (v : value) : props_t :=
  match v with
  | VObj ps => ps
  | VArr es => indexed 0 es
  | VStr s => indexed 0 (map VStr (chars s))
  | _ => []
  end.

(** ** Built-in objects and the prototype chain *)

(** A built-in object is a function ([typeof] gives ['function']), an
    array (only [Array.prototype] is one) or another object. *)
Inductive native_kind : Type :=
| NFunction
| NObject
| NArray.

(** What a prototype or a built-in object holds under a name: a primitive
    or a built-in object, known by its identity. *)
Inductive atom : Type :=
| AUndef
| ANull
| ABool (b : bool)
| ANum (n : Z)
| AStr (s : string)
| ANative (k : native_kind) (id : nat).

(** What the code holds in a variable of type [any]: a value of the data
    model or a built-in object. *)
Inductive operand : Type :=
| Data (v : value)
| Native (k : native_kind) (id : nat).

Definition of_atom (a : atom) : operand :=
  match a with
  | AUndef => Data VUndef
  | ANull => Data VNull
  | ABool b => Data (VBool b)
  | ANum n => Data (VNum n)
  | AStr s => Data (VStr s)
  | ANative k id => Native k id
  end.

(** The prototype chains of data: that of a boolean, a number, a string,
    an array and a plain object. *)
Inductive kind : Type :=
| KBoolean
| KNumber
| KString
| KArray
| KObject.

Definition kinds : list kind := [KBoolean; KNumber; KString; KArray; KObject].

(** The built-in objects of the engine the code runs in.  The built-in
    prototypes hold functions, and [Object.prototype] holds accessors under
    some names ([__proto__]); a built-in object answers a read with a
    primitive or a built-in object. *)
Class Realm : Type := {
  (** the names under which [Object.prototype] holds an accessor *)
  accessor : string -> bool;
  (** what the getter of such a name returns for a value of a kind *)
  getter : kind -> string -> atom;
  (** the function that the prototype chain of a kind holds under any other
      name, if it holds one *)
  method : kind -> string -> option nat;
  (** [b[key]] for the built-in object [b] *)
  native_get : nat -> string -> atom
}.

Definition op_truthy (x : operand) : bool :=
  match x with
  | Data v => truthy v
  | Native _ _ => true
  end.

Definition op_typeof_object (x : operand) : bool :=
  match x with
  | Data v => typeof_object v
  | Native NFunction _ => false
  | Native _ _ => true
  end.

Definition op_isArray (x : operand) : bool :=
  match x with
  | Data v => isArray v
  | Native NArray _ => true
  | Native _ _ => false
  end.

Definition op_nullish (x : operand) : bool :=
  match x with
  | Data v => nullish v
  | Native _ _ => false
  end.

(** A non-null object that is not an array: what the test of
    [mergeConfig] asks of the target's value. *)
Definition op_is_record (x : operand) : bool :=
  match x with
  | Data v => is_record v
  | Native NObject _ => true
  | Native _ _ => false
  end.

(** The own enumerable properties of an operand; a built-in object has
    none. *)
Definition op_own_props (x : operand) : props_t :=
  match x with
  | Data v => own_props v
  | Native _ _ => []
  end.

Fixpoint height (v : value) : nat :=
  match v with
  | VArr es => S (fold_right (fun e n => Nat.max (height e) n) 0 es)
  | VObj ps => S (fold_right (fun p n => Nat.max (height (snd p)) n) 0 ps)
  | _ => 0
  end.

(** The own property of [o] named [key], [undefined] if it has none and
    for [null] and [undefined]; arrays and strings have a [length]. *)
Definition getv (o : value) (key : string) : value :=
  match o with
  | VObj ps => field ps key
  | VArr es =>
      if key =? "length" then VNum (Z.of_nat (List.length es))
      else field (indexed 0 es) key
  | VStr s =>
      if key =? "length" then VNum (Z.of_nat (String.length s))
      else field (indexed 0 (map VStr (chars s))) key
  | _ => VUndef
  end.

(** The test of the [if] in [mergeConfig] for one key, on own properties. *)
Definition recurses (o t : value) (key : string) : bool :=
  truthy (getv o key) && is_record (getv t key).

(** A [formatConfig] callback: a function on configurations that may
    raise. *)
Definition formatter : Type := value -> outcome value.

Section Program.

Context {realm : Realm}.

(** What the prototype chain of a value of kind [k] yields for [key]. *)
Definition inherited (k : kind) (key : string) : atom :=
  if accessor key then getter k key
  else match method k key with
       | Some f => ANative NFunction f
       | None => AUndef
       end.

(** Reading [key] on a value of kind [k] with own properties [ps]. *)
Definition lookup (k : kind) (ps : props_t) (key : string) : operand :=
  match assoc_get key ps with
  | Some v => Data v
  | None => of_atom (inherited k key)
  end.

(** [o[key]]: reading a property.  On [null] and [undefined] it raises
    [TypeError]; otherwise it yields the own property of this name, or what
    the prototype chain holds under it.  Arrays and strings have an own
    [length]. *)
Definition get (o : operand) (key : string) : outcome operand :=
  match o with
  | Data VUndef | Data VNull => Throw TypeError
  | Data (VObj ps) => Ok (lookup KObject ps key)
  | Data (VArr es) =>
      if key =? "length" then Ok (Data (VNum (Z.of_nat (List.length es))))
      else Ok (lookup KArray (indexed 0 es) key)
  | Data (VStr s) =>
      if key =? "length" then Ok (Data (VNum (Z.of_nat (String.length s))))
      else Ok (lookup KString (indexed 0 (map VStr (chars s))) key)
  | Data (VBool _) => Ok (of_atom (inherited KBoolean key))
  | Data (VNum _) => Ok (of_atom (inherited KNumber key))
  | Native _ id => Ok (of_atom (native_get id key))
  end.

(** [o[key]] as a total function: [undefined] where the read raises. *)
Definition op_get (o : operand) (key : string) : operand :=
  match get o key with
  | Ok v => v
  | Throw _ => Data VUndef
  end.

(** The test of the [if] in [mergeConfig] for one key. *)
Definition op_recurses (o t : operand) (key : string) : bool :=
  op_truthy (op_get o key) && op_is_record (op_get t key).

(** [Object.assign(target, source)] for a plain object [target]: the own
    enumerable properties of the source are assigned, a name with an
    accessor going to its setter. *)
Definition object_assign (target : props_t) (source : operand) : props_t :=
  assign_set accessor (op_own_props source) target.

(** ** mergeConfig *)

(** The body of the [forEach] callback of [mergeConfig], for one key, with
    the recursive call abstracted as [rec].  [modifiedObj] is threaded
    through the loop; [key] is one of its own names, so the assignment
    replaces the value it has. *)
Definition mergeConfig_step
    (rec : operand -> operand -> outcome value)
    (originConfig targetConfig : operand)
    (modifiedObj : outcome props_t) (key : string) : outcome props_t :=
  let? obj := modifiedObj in
  let? ov := get originConfig key in
  if op_truthy ov then
    let? tv := get targetConfig key in
    if op_truthy tv && op_typeof_object tv && negb (op_isArray tv) then
      let? merged := rec ov tv in
      Ok (assoc_set key merged obj)
    else Ok obj
  else Ok obj.

(** [mergeConfig], with the depth of the call stack bounded by [fuel]; a
    call that needs more raises [RangeError], as the engine does. *)
Fixpoint mergeConfig_rec (fuel : nat) (originConfig targetConfig : operand)
  : outcome value :=
  match fuel with
  | O => Throw RangeError
  | S fuel' =>
      let modifiedObj :=
        object_assign (object_assign [] originConfig) targetConfig in
      let? obj :=
        fold_left
          (mergeConfig_step (mergeConfig_rec fuel') originConfig targetConfig)
          (keys modifiedObj) (Ok modifiedObj) in
      Ok (VObj obj)
  end.

(** [mergeConfig(originConfig, targetConfig)] on data.  The recursion
    descends in [targetConfig], so a stack one deeper than the target
    suffices ([mergeConfig_rec_enough] below). *)
Definition mergeConfig (originConfig targetConfig : value) : outcome value :=
  mergeConfig_rec (S (height targetConfig))
    (Data originConfig) (Data targetConfig).

(** The same for an origin that was read from a prototype. *)
Definition mergeConfig_from (originConfig : operand) (targetConfig : value)
  : outcome value :=
  mergeConfig_rec (S (height targetConfig)) originConfig (Data targetConfig).

(** ** formatMergeConfig *)

Definition formatMergeConfig (originConfig targetConfig : value)
    (formatConfig : option formatter) : outcome value :=
  let? mergedConfig := mergeConfig originConfig targetConfig in
  let modifiedConfig := Ok mergedConfig in
  match formatConfig with
  | Some f => f mergedConfig
  | None => modifiedConfig
  end.


(** A name is ordinary when the built-in objects know nothing of it: no
    prototype holds a function under it and [Object.prototype] has no
    accessor for it.  Reading it finds an own property or nothing, and
    assigning it creates a property. *)
Definition ordinary (key : string) : bool :=
  negb (accessor key) &&
  forallb (fun k => match method k key with
                    | Some _ => false
                    | None => true
                    end) kinds.

(** Data in which every property name, at any depth, is ordinary, the
    indices of arrays and strings included. *)
Fixpoint ordinary_value (v : value) : bool :=
  match v with
  | VObj ps =>
      forallb (fun p => ordinary (fst p) && ordinary_value (snd p)) ps
  | VArr es =>
      forallb ordinary (keys (indexed 0 es)) && forallb ordinary_value es
  | VStr s => forallb ordinary (keys (indexed 0 (chars s)))
  | _ => true
  end.

End Program.

(** ** Deep equality of data *)

(** Modelled from the spec: [isEqual] is imported from lodash-es, whose
    source is not part of the repository.  The spec asks for a recursive
    deep equality over objects, arrays and primitives that does not depend
    on key insertion order.  Two records are equal when they have the same
    number of properties and every property of the first is a property of
    the second with an equal value; two arrays when they are equal
    element by element. *)
Fixpoint isEqual (a b : value) : bool :=
  match a, b with
  | VUndef, VUndef => true
  | VNull, VNull => true
  | VBool x, VBool y => Bool.eqb x y
  | VNum x, VNum y => (x =? y)%Z
  | VStr x, VStr y => (x =? y)%string
  | VArr xs, VArr ys =>
      (fix elems (xs ys : list value) : bool :=
         match xs, ys with
         | [], [] => true
         | x :: xs', y :: ys' => isEqual x y && elems xs' ys'
         | _, _ => false
         end) xs ys
  | VObj ps, VObj qs =>
      (List.length ps =? List.length qs)%nat &&
      (fix props (ps : props_t) : bool :=
         match ps with
         | [] => true
         | (k, v) :: ps' =>
             match assoc_get k qs with
             | Some w => isEqual v w
             | None => false
             end && props ps'
         end) ps
  | _, _ => false
  end.

(** The two loops of [isEqual], named. *)
Fixpoint elems_equal (xs ys : list value) : bool :=
  match xs, ys with
  | [], [] => true
  | x :: xs', y :: ys' => isEqual x y && elems_equal xs' ys'
  | _, _ => false
  end.

Definition prop_in (qs : props_t) (p : string * value) : bool :=
  match assoc_get (fst p) qs with
  | Some w => isEqual (snd p) w
  | None => false
  end.

(** What the spec means by deeply equal: the same primitive, arrays equal
    element by element, records with the same properties up to their
    order. *)
Inductive deep_equal : value -> value -> Prop :=
| de_undef : deep_equal VUndef VUndef
| de_null : deep_equal VNull VNull
| de_bool b : deep_equal (VBool b) (VBool b)
| de_num n : deep_equal (VNum n) (VNum n)
| de_str s : deep_equal (VStr s) (VStr s)
| de_arr xs ys :
    Forall2 deep_equal xs ys -> deep_equal (VArr xs) (VArr ys)
| de_obj ps qs qs' :
    NoDup (keys ps) ->
    Permutation qs qs' ->
    Forall2 (fun p q => fst p = fst q /\ deep_equal (snd p) (snd q)) ps qs' ->
    deep_equal (VObj ps) (VObj qs).

(** A value is well formed when no record in it has two properties of the
    same name, as is the case for every JavaScript object. *)
Inductive wf_value : value -> Prop :=
| wf_undef : wf_value VUndef
| wf_null : wf_value VNull
| wf_bool b : wf_value (VBool b)
| wf_num n : wf_value (VNum n)
| wf_str s : wf_value (VStr s)
| wf_arr es : Forall wf_value es -> wf_value (VArr es)
| wf_obj ps :
    NoDup (keys ps) -> Forall (fun p => wf_value (snd p)) ps ->
    wf_value (VObj ps).

(** ** SingleChartHOC *)

(** A mount target ([HTMLElement]) and a chart instance are objects of the
    host; the model knows them by their identity. *)
Definition dom : Type := nat.
Definition plot : Type := nat.

(** [arr[idx] = v]: writing past the end extends the array. *)
Definition array_set {A} (hole : A) (arr : list A) (idx : nat) (v : A)
  : list A :=
  if (idx <? List.length arr)%nat
  then firstn idx arr ++ v :: skipn (S idx) arr
  else arr ++ repeat hole (idx - List.length arr) ++ [v].

(** [arr.findIndex(item => item === dom)], [None] for -1. *)
Fixpoint findIndex (arr : list dom) (d : dom) : option nat :=
  match arr with
  | [] => None
  | item :: arr' =>
      if (item =? d)%nat then Some 0
      else match findIndex arr' d with
           | Some i => Some (S i)
           | None => None
           end
  end.

Section HOC.

Context {realm : Realm}.

(** The state of everything outside the wrapper: the charts, the page, the
    application's stores. *)
Context {World : Type}.

(** An injected function runs on the world and returns or raises. *)
Definition callback (A : Type) : Type := World -> outcome A * World.

(** The two methods a chart instance must have. *)
Variable updateConfig : plot -> value -> callback unit.
Variable plot_render : plot -> callback unit.

Record SingleChartHOCConfig : Type := {
  cfg_stateManagerFunc : option (option plot -> value -> value -> callback unit);
  cfg_getOriginConfig :
    option (value -> value -> option formatter -> callback value)
}.

Record SingleChartHOC : Type := {
  dataArr : list value;
  chartPlotArr : list plot;
  getDom : dom -> value -> value -> option formatter -> callback plot;
  stateManagerFunc :
    option (option plot -> value -> value -> callback unit);
  getOriginConfig :
    option (value -> value -> option formatter -> callback value);
  domArr : list dom
}.

(** The constructor. *)
Definition new_SingleChartHOC
    (getDom : dom -> value -> value -> option formatter -> callback plot)
    (config : option SingleChartHOCConfig) : SingleChartHOC :=
  {| dataArr := [];
     chartPlotArr := [];
     getDom := getDom;
     stateManagerFunc :=
       match config with
       | Some c => cfg_stateManagerFunc c
       | None => None
       end;
     getOriginConfig :=
       match config with
       | Some c => cfg_getOriginConfig c
       | None => None
       end;
     domArr := [] |}.

(** Calls that leave the wrapper, in the order they are made. *)
Inductive event : Type :=
| CallGetDom (d : dom) (data config : value) (formatConfig : option formatter)
| CallGetOriginConfig (data config : value) (formatConfig : option formatter)
| CallUpdateConfig (p : plot) (cfg : value)
| CallRender (p : plot)
| CallStateManager (p : option plot) (data config : value).

Record state : Type := {
  hoc : SingleChartHOC;
  world : World;
  trace : list event
}.

(** Computations of the wrapper: they read and write [this], call out
    (which is recorded in the trace), and return or raise. *)
Definition M (A : Type) : Type := state -> outcome A * state.

Definition ret {A} (a : A) : M A := fun s => (Ok a, s).

Definition bind {A B} (m : M A) (k : A -> M B) : M B :=
  fun s =>
    match m s with
    | (Ok a, s') => k a s'
    | (Throw e, s') => (Throw e, s')
    end.

Definition this : M SingleChartHOC := fun s => (Ok (hoc s), s).

Definition update_this (f : SingleChartHOC -> SingleChartHOC) : M unit :=
  fun s => (Ok tt, {| hoc := f (hoc s); world := world s; trace := trace s |}).

Definition lift {A} (o : outcome A) : M A := fun s => (o, s).

(** Calling an injected function: the call is recorded, then it runs. *)
Definition call {A} (ev : event) (f : callback A) : M A :=
  fun s =>
    let (r, w) := f (world s) in
    (r, {| hoc := hoc s; world := w; trace := trace s ++ [ev] |}).

Notation "x <- m ;; k" := (bind m (fun x => k))
  (at level 61, m at next level, right associativity).
Notation "m ;; k" := (bind m (fun _ => k))
  (at level 61, right associativity).

Definition push_chartPlotArr (p : plot) : M unit :=
  update_this (fun h =>
    {| dataArr := dataArr h; chartPlotArr := chartPlotArr h ++ [p];
       getDom := getDom h; stateManagerFunc := stateManagerFunc h;
       getOriginConfig := getOriginConfig h; domArr := domArr h |}).

Definition push_dataArr (d : value) : M unit :=
  update_this (fun h =>
    {| dataArr := dataArr h ++ [d]; chartPlotArr := chartPlotArr h;
       getDom := getDom h; stateManagerFunc := stateManagerFunc h;
       getOriginConfig := getOriginConfig h; domArr := domArr h |}).

Definition push_domArr (d : dom) : M unit :=
  update_this (fun h =>
    {| dataArr := dataArr h; chartPlotArr := chartPlotArr h;
       getDom := getDom h; stateManagerFunc := stateManagerFunc h;
       getOriginConfig := getOriginConfig h; domArr := domArr h ++ [d] |}).

Definition set_dataArr (idx : nat) (d : value) : M unit :=
  update_this (fun h =>
    {| dataArr := array_set VUndef (dataArr h) idx d;
       chartPlotArr := chartPlotArr h;
       getDom := getDom h; stateManagerFunc := stateManagerFunc h;
       getOriginConfig := getOriginConfig h; domArr := domArr h |}).

(** [this.dataArr[idx]], [undefined] past the end. *)
Definition read_dataArr (idx : nat) : M value :=
  h <- this ;; ret (nth idx (dataArr h) VUndef).

(** [this.chartPlotArr[idx]], [None] for [undefined] past the end. *)
Definition read_chartPlotArr (idx : nat) : M (option plot) :=
  h <- this ;; ret (nth_error (chartPlotArr h) idx).

(** Looking up a method on [this.chartPlotArr[idx]] raises [TypeError] on
    [undefined]. *)
Definition receiver (p : option plot) : M plot :=
  match p with
  | Some q => ret q
  | None => lift (Throw TypeError)
  end.

(** [config || {}] *)
Definition config_or_empty (config : value) : value :=
  if truthy config then config else VObj [].

(** [{ data, ...merged }] *)
Definition with_data (data merged : value) : value :=
  VObj (assign_props (own_props merged) [("data", data)]).

(** The branch of [render] taken when the data changed. *)
Definition render_update (idx : nat) (data config : value)
    (formatConfig : option formatter) : M unit :=
  h <- this ;;
  set_dataArr idx data ;;
  originConfig <-
    match getOriginConfig h with
    | Some f => call (CallGetOriginConfig data config formatConfig)
                     (f data config formatConfig)
    | None => ret (VObj [])
    end ;;
  p <- read_chartPlotArr idx ;;
  chart <- receiver p ;;
  merged <- lift (formatMergeConfig originConfig
                    (config_or_empty config) formatConfig) ;;
  call (CallUpdateConfig chart (with_data data merged))
       (updateConfig chart (with_data data merged)) ;;
  p' <- read_chartPlotArr idx ;;
  chart' <- receiver p' ;;
  call (CallRender chart') (plot_render chart') ;;
  match stateManagerFunc h with
  | Some f =>
      p'' <- read_chartPlotArr idx ;;
      call (CallStateManager p'' data config) (f p'' data config)
  | None => ret tt
  end.

Definition render (d : dom) (data config : value)
    (formatConfig : option formatter) : M (option plot) :=
  h <- this ;;
  match findIndex (domArr h) d with
  | None =>
      p <- call (CallGetDom d data config formatConfig)
                (getDom h d data config formatConfig) ;;
      push_chartPlotArr p ;;
      push_dataArr data ;;
      push_domArr d ;;
      ret (Some p)
  | Some idx =>
      stored <- read_dataArr idx ;;
      (if negb (isEqual stored data)
       then render_update idx data config formatConfig
       else ret tt) ;;
      read_chartPlotArr idx
  end.

(** A render request, and a run of requests one after the other; a caller
    may go on after a request that raised. *)
Record request : Type := {
  req_dom : dom;
  req_data : value;
  req_config : value;
  req_formatConfig : option formatter
}.

Definition render_request (r : request) : M (option plot) :=
  render (req_dom r) (req_data r) (req_config r) (req_formatConfig r).

Fixpoint run (rs : list request) (s : state) : state :=
  match rs with
  | [] => s
  | r :: rs' => run rs' (snd (render_request r s))
  end.

(** Queries on traces. *)
Definition is_getDom (ev : event) : bool :=
  match ev with CallGetDom _ _ _ _ => true | _ => false end.

Definition is_stateManager (ev : event) : bool :=
  match ev with CallStateManager _ _ _ => true | _ => false end.

Definition is_getDom_for (d : dom) (ev : event) : bool :=
  match ev with CallGetDom d' _ _ _ => (d' =? d)%nat | _ => false end.

(** The call is made on chart instance [p]. *)
Definition on_plot (p : plot) (ev : event) : bool :=
  match ev with
  | CallUpdateConfig q _ | CallRender q => (q =? p)%nat
  | _ => false
  end.

Definition count (f : event -> bool) (t : list event) : nat :=
  List.length (filter f t).

(** The three arrays of the registry go together: entry [i] is
    [domArr[i]], [dataArr[i]], [chartPlotArr[i]]. *)
Definition aligned (h : SingleChartHOC) : Prop :=
  List.length (dataArr h) = List.length (domArr h) /\
  List.length (chartPlotArr h) = List.length (domArr h).

(** At most one entry for a mount target. *)
Definition registry_ok (h : SingleChartHOC) : Prop :=
  NoDup (domArr h) /\ aligned h.

(** The registry after [this.dataArr[idx] = data]. *)
Definition stored (idx : nat) (data : value) (h : SingleChartHOC)
  : SingleChartHOC :=
  {| dataArr := array_set VUndef (dataArr h) idx data;
     chartPlotArr := chartPlotArr h;
     getDom := getDom h; stateManagerFunc := stateManagerFunc h;
     getOriginConfig := getOriginConfig h; domArr := domArr h |}.

(** The registry after the three [push]es of a first render. *)
Definition registered (d : dom) (data : value) (p : plot)
    (h : SingleChartHOC) : SingleChartHOC :=
  {| dataArr := dataArr h ++ [data];
     chartPlotArr := chartPlotArr h ++ [p];
     getDom := getDom h; stateManagerFunc := stateManagerFunc h;
     getOriginConfig := getOriginConfig h; domArr := domArr h ++ [d] |}.

(** What [this.getOriginConfig ? this.getOriginConfig(...) : {}] yields in
    world [w]: the outcome, the world after it, and the call made. *)
Definition origin_call (h : SingleChartHOC) (data config : value)
    (formatConfig : option formatter) (w : World)
  : outcome value * World * list event :=
  match getOriginConfig h with
  | Some f =>
      let (r, w') := f data config formatConfig w in
      (r, w', [CallGetOriginConfig data config formatConfig])
  | None => (Ok (VObj []), w, [])
  end.

Definition mk (h : SingleChartHOC) (w : World) (t : list event) : state :=
  {| hoc := h; world := w; trace := t |}.

(** The state in which a wrapper starts. *)
Definition initial
    (getDom : dom -> value -> value -> option formatter -> callback plot)
    (config : option SingleChartHOCConfig) (w : World) : state :=
  {| hoc := new_SingleChartHOC getDom config; world := w; trace := [] |}.

(** [createSingleChart(getDom, chartConfig)]: a new wrapper and its
    [render], bound to it. *)
Definition createSingleChart
    (getDom : dom -> value -> value -> option formatter -> callback plot)
    (chartConfig : option SingleChartHOCConfig) (w : World)
  : state * (dom -> value -> value -> option formatter -> M (option plot)) :=
  (initial getDom chartConfig w, render).

End HOC.

Arguments SingleChartHOC : clear implicits.
Arguments SingleChartHOCConfig : clear implicits.
Arguments state : clear implicits.
Arguments event : clear implicits.
Arguments callback : clear implicits.

(** ** mergeConfig over a heap of objects

    The tree model above cannot tell a fresh object from a shared one.
    Here objects and arrays live in a heap and values refer to them by
    address; [mergeConfig] allocates and writes as the source does. *)
Module Heap.

Inductive hval : Type :=
| HUndef
| HNull
| HBool (b : bool)
| HNum (n : Z)
| HStr (s : string)
| HRef (a : nat)
| HNative (k : native_kind) (id : nat).

Inductive cell : Type :=
| CObj (props : list (string * hval))
| CArr (elems : list hval).

(** Addresses are positions; allocation appends. *)
Definition heap : Type := list cell.

Definition H (A : Type) : Type := heap -> outcome A * heap.

Definition ret {A} (a : A) : H A := fun h => (Ok a, h).

Definition throw {A} (e : exn) : H A := fun h => (Throw e, h).

Definition bind {A B} (m : H A) (k : A -> H B) : H B :=
  fun h =>
    match m h with
    | (Ok a, h') => k a h'
    | (Throw e, h') => (Throw e, h')
    end.

Notation "x <- m ;; k" := (bind m (fun x => k))
  (at level 61, m at next level, right associativity).
Notation "m ;; k" := (bind m (fun _ => k))
  (at level 61, right associativity).

Definition truthy (v : hval) : bool :=
  match v with
  | HUndef | HNull => false
  | HBool b => b
  | HNum n => negb (n =? 0)%Z
  | HStr s => negb (s =? "")
  | HRef _ | HNative _ _ => true
  end.

Definition typeof_object (v : hval) : bool :=
  match v with
  | HNull | HRef _ => true
  | HNative NFunction _ => false
  | HNative _ _ => true
  | _ => false
  end.

Definition isArray (h : heap) (v : hval) : bool :=
  match v with
  | HRef a =>
      match nth_error h a with
      | Some (CArr _) => true
      | _ => false
      end
  | HNative NArray _ => true
  | _ => false
  end.

Definition cell_props (c : cell) : list (string * hval) :=
  match c with
  | CObj ps => ps
  | CArr es => indexed 0 es
  end.

Definition own_props (h : heap) (v : hval) : list (string * hval) :=
  match v with
  | HRef a =>
      match nth_error h a with
      | Some c => cell_props c
      | None => []
      end
  | HStr s => indexed 0 (map HStr (chars s))
  | _ => []
  end.

Definition hof_atom (a : atom) : hval :=
  match a with
  | AUndef => HUndef
  | ANull => HNull
  | ABool b => HBool b
  | ANum n => HNum n
  | AStr s => HStr s
  | ANative k id => HNative k id
  end.

(** [{}] *)
Definition new_object : H nat :=
  fun h => (Ok (List.length h), (h ++ [CObj []])%list).

Definition write_cell (a : nat) (c : cell) (h : heap) : heap :=
  (firstn a h ++ c :: skipn (S a) h)%list.

(** [obj[key] = v] for a plain object [obj] that has a property [key]. *)
Definition set_prop (obj : nat) (key : string) (v : hval) : H unit :=
  fun h =>
    match nth_error h obj with
    | Some (CObj ps) => (Ok tt, write_cell obj (CObj (assoc_set key v ps)) h)
    | _ => (Ok tt, h)
    end.

Fixpoint forEach (ks : list string) (f : string -> H unit) : H unit :=
  match ks with
  | [] => ret tt
  | k :: ks' => f k ;; forEach ks' f
  end.

(** [Object.keys(obj)] *)
Definition object_keys (obj : nat) : H (list string) :=
  fun h => (Ok (keys (own_props h (HRef obj))), h).

Section Program.

Context {realm : Realm}.

(** Reading [key] on an object of kind [k] with own properties [ps]. *)
Definition hlookup (k : kind) (ps : list (string * hval)) (key : string)
  : hval :=
  match assoc_get key ps with
  | Some v => v
  | None => hof_atom (inherited k key)
  end.

(** [o[key]] *)
Definition get (o : hval) (key : string) : H hval :=
  fun h =>
    match o with
    | HUndef | HNull => (Throw TypeError, h)
    | HRef a =>
        match nth_error h a with
        | Some (CObj ps) => (Ok (hlookup KObject ps key), h)
        | Some (CArr es) =>
            if key =? "length" then (Ok (HNum (Z.of_nat (List.length es))), h)
            else (Ok (hlookup KArray (indexed 0 es) key), h)
        | None => (Ok HUndef, h)
        end
    | HStr s =>
        if key =? "length" then (Ok (HNum (Z.of_nat (String.length s))), h)
        else (Ok (hlookup KString (indexed 0 (map HStr (chars s))) key), h)
    | HBool _ => (Ok (hof_atom (inherited KBoolean key)), h)
    | HNum _ => (Ok (hof_atom (inherited KNumber key)), h)
    | HNative _ id => (Ok (hof_atom (native_get id key)), h)
    end.

(** [Object.assign(obj, source)] for a plain object [obj]. *)
Definition object_assign (obj : nat) (source : hval) : H unit :=
  fun h =>
    match nth_error h obj with
    | Some (CObj ps) =>
        (Ok tt,
         write_cell obj
           (CObj (assign_set accessor (own_props h source) ps)) h)
    | _ => (Ok tt, h)
    end.

Definition mergeConfig_step (rec : hval -> hval -> H hval)
    (originConfig targetConfig : hval) (modifiedObj : nat) (key : string)
  : H unit :=
  ov <- get originConfig key ;;
  if truthy ov then
    tv <- get targetConfig key ;;
    fun h =>
      if truthy tv && typeof_object tv && negb (isArray h tv) then
        (merged <- rec ov tv ;; set_prop modifiedObj key merged) h
      else (Ok tt, h)
  else ret tt.

Fixpoint mergeConfig (fuel : nat) (originConfig targetConfig : hval)
  : H hval :=
  match fuel with
  | O => throw RangeError
  | S fuel' =>
      modifiedObj <- new_object ;;
      object_assign modifiedObj originConfig ;;
      object_assign modifiedObj targetConfig ;;
      ks <- object_keys modifiedObj ;;
      forEach ks
        (mergeConfig_step (mergeConfig fuel') originConfig targetConfig
           modifiedObj) ;;
      ret (HRef modifiedObj)
  end.

End Program.


(** Every cell of [h] is still there, unchanged, in [h']. *)
Definition preserved (h h' : heap) : Prop :=
  (List.length h <= List.length h')%nat /\
  forall a, (a < List.length h)%nat -> nth_error h' a = nth_error h a.

(** The same, except possibly for the cell at [a]. *)
Definition preserved_but (a : nat) (h h' : heap) : Prop :=
  (List.length h <= List.length h')%nat /\
  forall b, b <> a -> (b < List.length h)%nat ->
    nth_error h' b = nth_error h b.









End Heap.

(** ** Realms

    [bare] has no built-in property at all: there a read sees own
    properties only and every name is ordinary.

    [Builtins.realm] is a small realm for the examples.  It has the
    properties that ECMAScript gives [Object.prototype], the accessor
    [__proto__] among them, and every kind of value inherits just these.
    A built-in function knows its name; [Object] also knows its [length]
    and its [prototype]. *)
Definition bare : Realm :=
  {| accessor := fun _ => false;
     getter := fun _ _ => AUndef;
     method := fun _ _ => None;
     native_get := fun _ _ => AUndef |}.

Module Builtins.

(** The function-valued properties of [Object.prototype]. *)
Definition names : list string :=
  ["constructor"; "hasOwnProperty"; "isPrototypeOf"; "propertyIsEnumerable";
   "toLocaleString"; "toString"; "valueOf"; "__defineGetter__";
   "__defineSetter__"; "__lookupGetter__"; "__lookupSetter__"].

Fixpoint position (key : string) (l : list string) : option nat :=
  match l with
  | [] => None
  | n :: l' =>
      if n =? key then Some 0
      else match position key l' with
           | Some i => Some (S i)
           | None => None
           end
  end.

(** Identities: the five prototypes first, the functions from 10 on, in
    the order of [names]; 10 is [Object], the [constructor]. *)
Definition prototype_of (k : kind) : atom :=
  match k with
  | KObject => ANative NObject 0
  | KArray => ANative NArray 1
  | KString => ANative NObject 2
  | KNumber => ANative NObject 3
  | KBoolean => ANative NObject 4
  end.

Definition function_of (key : string) : option nat :=
  match position key names with
  | Some i => Some (10 + i)
  | None => None
  end.

Definition read (id : nat) (key : string) : atom :=
  if (id =? 0)%nat then
    if key =? "__proto__" then ANull
    else match function_of key with
         | Some f => ANative NFunction f
         | None => AUndef
         end
  else if (id =? 10)%nat then
    if key =? "name" then AStr "Object"
    else if key =? "length" then ANum 1
    else if key =? "prototype" then ANative NObject 0
    else AUndef
  else if (10 <? id)%nat then
    if key =? "name" then
      match nth_error names (id - 10) with
      | Some n => AStr n
      | None => AUndef
      end
    else AUndef
  else AUndef.

Definition realm : Realm :=
  {| accessor := fun key => key =? "__proto__";
     getter := fun k _ => prototype_of k;
     method := fun _ key => function_of key;
     native_get := read |}.

End Builtins.


(** ** A small world to run the wrapper in

    The world counts the repaints.  A chart created for target [d] is
    instance [100 + d]. *)
Module Example.

#[local] Existing Instance Builtins.realm.

Definition create : dom -> value -> value -> option formatter ->
                    callback nat plot :=
  fun d _ _ _ w => (Ok (100 + d), w).

Definition create_fails : dom -> value -> value -> option formatter ->
                          callback nat plot :=
  fun _ _ _ _ w => (Throw (Thrown (VStr "no container")), w).

Definition update : plot -> value -> callback nat unit :=
  fun _ _ w => (Ok tt, w).

Definition update_fails : plot -> value -> callback nat unit :=
  fun _ _ w => (Throw (Thrown (VStr "bad config")), w).

Definition repaint : plot -> callback nat unit :=
  fun _ w => (Ok tt, S w).

Definition manage : option plot -> value -> value -> callback nat unit :=
  fun _ _ _ w => (Ok tt, w).

Definition sales : value := VObj [("x", VNum 1); ("y", VNum 2)].
Definition sales_reordered : value := VObj [("y", VNum 2); ("x", VNum 1)].
Definition sales_changed : value := VObj [("x", VNum 1); ("y", VNum 5)].

(** A wrapper without options and one with a state manager, each after a
    first render of [sales] on target 1. *)
Definition started : state nat :=
  snd (render update repaint 1 sales VUndef None (initial create None 0)).

Definition managed : state nat :=
  snd (render update repaint 1 sales VUndef None
         (initial create
            (Some {| cfg_stateManagerFunc := Some manage;
                     cfg_getOriginConfig := None |}) 0)).

(** The first wrapper after a first render on target 2 as well. *)
Definition two_targets : state nat :=
  snd (render update repaint 2 sales VUndef None started).

(** A wrapper whose charts reject every configuration, after a first
    render. *)
Definition fragile : state nat :=
  snd (render update_fails repaint 1 sales VUndef None (initial create None 0)).

End Example.

(** ** Further notions used below *)


(** [v.k1.k2...kn] through records, [None] where a step leaves them. *)
Fixpoint get_path (path : list string) (v : value) : option value :=
  match path with
  | [] => Some v
  | k :: rest =>
      match v with
      | VObj ps =>
          match assoc_get k ps with
          | Some x => get_path rest x
          | None => None
          end
      | _ => None
      end
  end.

(** The target [t] says nothing about [path]: it follows the path through
    records for a while and then lacks the next name. *)
Fixpoint untouched (path : list string) (t : value) : bool :=
  match path with
  | [] => false
  | k :: rest =>
      match t with
      | VObj pt =>
          match assoc_get k pt with
          | Some x => is_record x && untouched rest x
          | None => true
          end
      | _ => false
      end
  end.


(** [arr.includes(d)] for mount targets. *)
Definition mem (d : dom) (arr : list dom) : bool := existsb (Nat.eqb d) arr.

(** The targets of [arr] followed by those of [ds] that are new, each once,
    in the order in which they first appear. *)
Definition register_all (arr ds : list dom) : list dom :=
  fold_left (fun acc d => if mem d acc then acc else (acc ++ [d])%list) ds arr.

Section HOCNotions.

Context {World : Type}.

(** A create function that returns whatever it is given. *)
Definition never_raises
    (create : dom -> value -> value -> option formatter ->
              callback World plot) : Prop :=
  forall d data config f w,
    exists p w', create d data config f w = (Ok p, w').

(** A registry and its three injected functions. *)
Definition same_functions (h h' : SingleChartHOC World) : Prop :=
  getDom h' = getDom h /\
  stateManagerFunc h' = stateManagerFunc h /\
  getOriginConfig h' = getOriginConfig h.

End HOCNotions.

(** ** Sharing in the heap model *)

Module Sharing.

Import Heap.



Section Program.

Context {realm : Realm}.




End Program.

End Sharing.

(** ** More of the small world *)

Module Scenario.

#[local] Existing Instance Builtins.realm.

(** A [getOriginConfig] that has nothing to say. *)
Definition origin_null : value -> value -> option formatter ->
                         callback nat value :=
  fun _ _ _ w => (Ok VNull, w).

(** A state manager that raises. *)
Definition manage_fails : option plot -> value -> value ->
                          callback nat unit :=
  fun _ _ _ w => (Throw (Thrown (VStr "store is closed")), w).

Definition request (d : dom) (data : value) : request :=
  {| req_dom := d; req_data := data; req_config := VUndef;
     req_formatConfig := None |}.

(** A wrapper with [origin_null], after a first render on target 1. *)
Definition no_origin : state nat :=
  snd (render Example.update Example.repaint 1 Example.sales VUndef None
         (initial Example.create
            (Some {| cfg_stateManagerFunc := None;
                     cfg_getOriginConfig := Some origin_null |}) 0)).

(** A wrapper with [manage_fails], after a first render on target 1. *)
Definition bad_manager : state nat :=
  snd (render Example.update Example.repaint 1 Example.sales VUndef None
         (initial Example.create
            (Some {| cfg_stateManagerFunc := Some manage_fails;
                     cfg_getOriginConfig := None |}) 0)).

End Scenario.

(** * Properties *)

(** ** Association lists *)

Section PropertiesFacts.

Context {A : Type}.
Implicit Types (ps : list (string * A)) (k : string).

Lemma assoc_get_set_eq k (v : A) ps :
  assoc_get k (assoc_set k v ps) = Some v.
Proof.
  induction ps as [|[k' w] ps IH]; simpl.
  - now rewrite String.eqb_refl.
  - destruct (k' =? k) eqn:E; simpl; rewrite E; auto.
Qed.

Lemma assoc_get_set_neq k k' (v : A) ps :
  k <> k' -> assoc_get k' (assoc_set k v ps) = assoc_get k' ps.
Proof.
  intros Hne. induction ps as [|[k0 w] ps IH]; simpl.
  - destruct (k =? k') eqn:E; auto.
    apply String.eqb_eq in E. contradiction.
  - destruct (k0 =? k) eqn:E; simpl.
    + apply String.eqb_eq in E. subst k0.
      destruct (k =? k') eqn:E'; auto.
      apply String.eqb_eq in E'. contradiction.
    + destruct (k0 =? k'); auto.
Qed.

Lemma assoc_get_none k ps : assoc_get k ps = None <-> ~ In k (keys ps).
Proof.
  induction ps as [|[k' w] ps IH]; simpl.
  - tauto.
  - destruct (k' =? k) eqn:E.
    + apply String.eqb_eq in E. split; [discriminate | tauto].
    + apply String.eqb_neq in E. tauto.
Qed.

Lemma assoc_get_in k (v : A) ps : assoc_get k ps = Some v -> In (k, v) ps.
Proof.
  induction ps as [|[k' w] ps IH]; simpl; [discriminate|].
  destruct (k' =? k) eqn:E.
  - apply String.eqb_eq in E. intros [= ->]. subst. now left.
  - auto.
Qed.

Lemma in_assoc_get k (v : A) ps :
  NoDup (keys ps) -> In (k, v) ps -> assoc_get k ps = Some v.
Proof.
  induction ps as [|[k' w] ps IH]; simpl; [tauto|].
  intros Hnd [Heq | Hin].
  - injection Heq as -> ->. now rewrite String.eqb_refl.
  - inversion Hnd as [|? ? Hnotin Hnd']; subst.
    destruct (k' =? k) eqn:E.
    + apply String.eqb_eq in E. subst k'. exfalso. apply Hnotin.
      apply (in_map fst) in Hin. exact Hin.
    + auto.
Qed.

Lemma keys_assoc_set k (v : A) ps :
  keys (assoc_set k v ps) =
  if in_dec string_dec k (keys ps) then keys ps else (keys ps ++ [k])%list.
Proof.
  induction ps as [|[k' w] ps IH]; simpl; auto.
  destruct (k' =? k) eqn:E; simpl.
  - apply String.eqb_eq in E. subst.
    destruct (string_dec k k); [|contradiction].
    reflexivity.
  - apply String.eqb_neq in E. rewrite IH.
    destruct (string_dec k' k); [contradiction|].
    destruct (in_dec string_dec k (keys ps)); reflexivity.
Qed.

Lemma nodup_keys_assoc_set k (v : A) ps :
  NoDup (keys ps) -> NoDup (keys (assoc_set k v ps)).
Proof.
  intros Hnd. rewrite keys_assoc_set.
  destruct (in_dec string_dec k (keys ps)); auto.
  apply NoDup_app; auto.
  - repeat constructor. simpl. tauto.
  - intros x Hx [<- | []]. contradiction.
Qed.

Lemma assoc_get_assign k (src tgt : list (string * A)) :
  NoDup (keys src) ->
  assoc_get k (assign_props src tgt) =
  match assoc_get k src with
  | Some v => Some v
  | None => assoc_get k tgt
  end.
Proof.
  unfold assign_props. revert tgt.
  induction src as [|[k' w] src IH]; intros tgt Hnd; simpl; auto.
  inversion Hnd as [|? ? Hnotin Hnd']; subst.
  rewrite IH by assumption.
  destruct (k' =? k) eqn:E.
  - apply String.eqb_eq in E. subst k'.
    apply assoc_get_none in Hnotin. rewrite Hnotin.
    apply assoc_get_set_eq.
  - apply String.eqb_neq in E.
    destruct (assoc_get k src); auto.
    now apply assoc_get_set_neq.
Qed.

Lemma nodup_keys_assign (src tgt : list (string * A)) :
  NoDup (keys tgt) -> NoDup (keys (assign_props src tgt)).
Proof.
  unfold assign_props. revert tgt.
  induction src as [|[k' w] src IH]; intros tgt Hnd; simpl; auto.
  apply IH. now apply nodup_keys_assoc_set.
Qed.

Lemma assoc_set_fresh k (v : A) ps :
  ~ In k (keys ps) -> assoc_set k v ps = (ps ++ [(k, v)])%list.
Proof.
  induction ps as [|[k' w] ps IH]; simpl; auto.
  intros Hn. destruct (k' =? k) eqn:E.
  - apply String.eqb_eq in E. tauto.
  - f_equal. apply IH. tauto.
Qed.

Lemma assign_props_nodup_app (src tgt : list (string * A)) :
  NoDup (keys (tgt ++ src)) -> assign_props src tgt = (tgt ++ src)%list.
Proof.
  unfold assign_props. revert tgt.
  induction src as [|[k' w] src IH]; intros tgt Hnd; simpl.
  - now rewrite app_nil_r.
  - assert (Hn : ~ In k' (keys tgt)).
    { unfold keys in Hnd. rewrite map_app in Hnd. simpl in Hnd.
      apply NoDup_remove_2 in Hnd. intro Hin. apply Hnd.
      apply in_or_app. now left. }
    rewrite assoc_set_fresh by assumption.
    rewrite IH; rewrite <- app_assoc; simpl; auto.
Qed.

Lemma assign_props_nil (src : list (string * A)) :
  NoDup (keys src) -> assign_props src [] = src.
Proof. intros Hnd. now rewrite assign_props_nodup_app. Qed.

Lemma in_keys_assoc_set k k' (v : A) ps :
  In k' (keys ps) \/ k' = k -> In k' (keys (assoc_set k v ps)).
Proof.
  rewrite keys_assoc_set.
  destruct (in_dec string_dec k (keys ps)) as [Hin | Hnin].
  - intros [H | ->]; auto.
  - intros [H | ->]; apply in_or_app; simpl; auto.
Qed.

Lemma in_keys_assign k (src tgt : list (string * A)) :
  In k (keys src) \/ In k (keys tgt) -> In k (keys (assign_props src tgt)).
Proof.
  unfold assign_props. revert tgt.
  induction src as [|[k' w] src IH]; intros tgt; simpl.
  - tauto.
  - intros [[<- | H] | H]; apply IH; auto; right; apply in_keys_assoc_set; auto.
Qed.

Lemma keys_assoc_set_in k (v : A) ps :
  In k (keys ps) -> keys (assoc_set k v ps) = keys ps.
Proof.
  intros Hin. rewrite keys_assoc_set.
  destruct (in_dec string_dec k (keys ps)); [reflexivity | contradiction].
Qed.

(** Two property lists with the same names in the same order and the same
    value under each name are the same list. *)
Lemma props_ext ps (qs : list (string * A)) :
  keys ps = keys qs -> NoDup (keys ps) ->
  (forall k, assoc_get k ps = assoc_get k qs) ->
  ps = qs.
Proof.
  revert qs. induction ps as [|[k v] ps IH]; intros [|[k' w] qs] Hk Hnd Hget;
    simpl in Hk; try discriminate; auto.
  injection Hk as <- Hk. inversion Hnd as [|? ? Hnotin Hnd']; subst.
  pose proof (Hget k) as Hkk. simpl in Hkk. rewrite String.eqb_refl in Hkk.
  injection Hkk as <-. f_equal. apply IH; auto.
  intros k0. specialize (Hget k0). simpl in Hget.
  destruct (k =? k0) eqn:E; auto.
  apply String.eqb_eq in E. subst k0.
  apply assoc_get_none in Hnotin. rewrite Hnotin.
  symmetry. apply assoc_get_none. rewrite <- Hk. now apply assoc_get_none.
Qed.

Lemma keys_assign_within (src tgt : list (string * A)) :
  (forall k, In k (keys src) -> In k (keys tgt)) ->
  keys (assign_props src tgt) = keys tgt.
Proof.
  unfold assign_props. revert tgt.
  induction src as [|[k v] src IH]; intros tgt Hin; simpl; auto.
  assert (Hk : In k (keys tgt)) by (apply Hin; now left).
  rewrite IH.
  - now apply keys_assoc_set_in.
  - intros k' Hk'. rewrite keys_assoc_set_in by exact Hk.
    apply Hin. now right.
Qed.

Lemma in_keys_assoc_get k ps :
  In k (keys ps) <-> exists v, assoc_get k ps = Some v.
Proof.
  split.
  - intros Hin. destruct (assoc_get k ps) as [v|] eqn:E; eauto.
    apply assoc_get_none in E. contradiction.
  - intros [v Hv]. apply assoc_get_in in Hv.
    apply (in_map fst) in Hv. exact Hv.
Qed.

Lemma in_assoc_set k k' (v w : A) ps :
  In (k, v) (assoc_set k' w ps) -> (k, v) = (k', w) \/ In (k, v) ps.
Proof.
  induction ps as [|[k0 x] ps IH]; simpl.
  - intros [E | []]. left. now symmetry.
  - destruct (k0 =? k') eqn:E; simpl.
    + apply String.eqb_eq in E. subst k0.
      intros [E | E]; [left; now symmetry | right; now right].
    + intros [E' | E']; [right; now left|].
      destruct (IH E'); [now left | right; now right].
Qed.

Lemma in_assign_props k (v : A) (src tgt : list (string * A)) :
  In (k, v) (assign_props src tgt) -> In (k, v) src \/ In (k, v) tgt.
Proof.
  unfold assign_props. revert tgt.
  induction src as [|[k' w] src IH]; intros tgt; simpl; auto.
  intros E. destruct (IH _ E) as [E' | E']; [left; now right|].
  destruct (in_assoc_set _ _ _ _ _ E') as [-> | E'']; [left; now left|].
  now right.
Qed.

Lemma in_keys_assign_inv k (src tgt : list (string * A)) :
  In k (keys (assign_props src tgt)) -> In k (keys src) \/ In k (keys tgt).
Proof.
  intros Hin. apply in_keys_assoc_get in Hin. destruct Hin as [v Hv].
  apply assoc_get_in in Hv.
  destruct (in_assign_props _ _ _ _ Hv) as [E | E];
    [left | right]; apply (in_map fst) in E; exact E.
Qed.

Lemma existsb_eqb_in k ks : In k ks -> existsb (String.eqb k) ks = true.
Proof.
  intros Hin. apply existsb_exists. exists k. split; auto.
  apply String.eqb_refl.
Qed.

Lemma existsb_eqb_iff k ks : existsb (String.eqb k) ks = true <-> In k ks.
Proof.
  split; [|apply existsb_eqb_in].
  intros E. apply existsb_exists in E. destruct E as (x & Hin & E).
  apply String.eqb_eq in E. now subst.
Qed.

(** *** Assignment with setters *)

Section Setters.

Variable skip : string -> bool.

Lemma assign_prop_plain ps k (v : A) :
  skip k = false -> assign_prop skip ps (k, v) = assoc_set k v ps.
Proof. unfold assign_prop. simpl. now intros ->. Qed.

Lemma assign_prop_skipped ps k (v : A) :
  skip k = true -> ~ In k (keys ps) -> assign_prop skip ps (k, v) = ps.
Proof.
  unfold assign_prop. simpl. intros -> Hn.
  destruct (existsb (String.eqb k) (keys ps)) eqn:E; auto.
  apply existsb_eqb_iff in E. contradiction.
Qed.

(** Where no name of the source has a setter, assigning is defining. *)
Lemma assign_set_props (src tgt : list (string * A)) :
  (forall k, In k (keys src) -> skip k = false) ->
  assign_set skip src tgt = assign_props src tgt.
Proof.
  unfold assign_set, assign_props. revert tgt.
  induction src as [|[k v] src IH]; intros tgt Hs; simpl; auto.
  rewrite assign_prop_plain by (apply Hs; now left).
  apply IH. intros k' Hk'. apply Hs. now right.
Qed.

(** On an object without properties under names with a setter, assigning
    is defining the properties whose name has none. *)
Lemma assign_set_filter (src tgt : list (string * A)) :
  (forall k, In k (keys tgt) -> skip k = false) ->
  assign_set skip src tgt =
  assign_props (filter (fun p => negb (skip (fst p))) src) tgt.
Proof.
  unfold assign_set, assign_props. revert tgt.
  induction src as [|[k v] src IH]; intros tgt Ht; simpl; auto.
  destruct (skip k) eqn:E; simpl.
  - rewrite assign_prop_skipped; auto.
    intros Hin. apply Ht in Hin. congruence.
  - rewrite assign_prop_plain by assumption. apply IH.
    intros k' Hk'. rewrite keys_assoc_set in Hk'.
    destruct (in_dec string_dec k (keys tgt)); auto.
    apply in_app_or in Hk'. destruct Hk' as [Hk' | [<- | []]]; auto.
Qed.

Lemma keys_filter_plain (src : list (string * A)) k :
  In k (keys (filter (fun p => negb (skip (fst p))) src)) <->
  In k (keys src) /\ skip k = false.
Proof.
  unfold keys. rewrite !in_map_iff. split.
  - intros ([k' v] & <- & Hin). apply filter_In in Hin. simpl in *.
    destruct Hin as [Hin Hs]. split.
    + exists (k', v). auto.
    + now destruct (skip k').
  - intros [([k' v] & <- & Hin) Hs]. simpl in *. exists (k', v). split; auto.
    apply filter_In. simpl. split; auto. now rewrite Hs.
Qed.

(** The names of the object after an assignment. *)
Lemma in_keys_assign_set (src tgt : list (string * A)) k :
  (forall k', In k' (keys tgt) -> skip k' = false) ->
  In k (keys (assign_set skip src tgt)) <->
  In k (keys tgt) \/ (In k (keys src) /\ skip k = false).
Proof.
  intros Ht. rewrite assign_set_filter by assumption. split.
  - intros Hin. apply in_keys_assign_inv in Hin. destruct Hin as [Hin | Hin]; auto.
    right. now apply keys_filter_plain.
  - intros [Hin | Hin]; apply in_keys_assign; auto.
    left. now apply keys_filter_plain.
Qed.

Lemma assign_set_keys_plain (src tgt : list (string * A)) :
  (forall k, In k (keys tgt) -> skip k = false) ->
  forall k, In k (keys (assign_set skip src tgt)) -> skip k = false.
Proof.
  intros Ht k Hin. apply in_keys_assign_set in Hin; auto.
  destruct Hin as [Hin | [_ Hs]]; auto.
Qed.





End Setters.

End PropertiesFacts.

(** ** Induction on values *)

Section ValueInduction.

Variable P : value -> Prop.
Hypothesis P_undef : P VUndef.
Hypothesis P_null : P VNull.
Hypothesis P_bool : forall b, P (VBool b).
Hypothesis P_num : forall n, P (VNum n).
Hypothesis P_str : forall s, P (VStr s).
Hypothesis P_arr : forall es, Forall P es -> P (VArr es).
Hypothesis P_obj : forall ps, Forall (fun p => P (snd p)) ps -> P (VObj ps).

(** Induction on values that reaches the elements of arrays and the
    properties of records. *)
Lemma value_deep_ind : forall v, P v.
Proof.
  fix IH 1. intros [| |b|n|s|es|ps].
  - apply P_undef.
  - apply P_null.
  - apply P_bool.
  - apply P_num.
  - apply P_str.
  - apply P_arr. induction es as [|e es IHes]; constructor; [apply IH | exact IHes].
  - apply P_obj. induction ps as [|p ps IHps]; constructor; [apply IH | exact IHps].
Qed.

End ValueInduction.

(** ** Values and their own properties *)

Lemma truthy_nonnullish v : truthy v = true -> nullish v = false.
Proof. destruct v; simpl; auto; discriminate. Qed.

Lemma is_record_nonnullish v : is_record v = true -> nullish v = false.
Proof. destruct v; simpl; auto; discriminate. Qed.

Lemma object_test_is_record v :
  truthy v && typeof_object v && negb (isArray v) = is_record v.
Proof.
  destruct v as [| |b|n|s|es|ps]; simpl; auto.
  - now rewrite andb_false_r.
  - now rewrite andb_false_r.
  - now rewrite andb_false_r.
Qed.

Lemma indexed_in (i : nat) (l : list value) k v :
  In (k, v) (indexed i l) -> In v l.
Proof.
  revert i. induction l as [|x l IH]; intros i; simpl; [tauto|].
  intros [Heq | Hin].
  - injection Heq as _ ->. now left.
  - right. eapply IH. eassumption.
Qed.

Lemma height_elem v es :
  In v es -> height v <= fold_right (fun e n => Nat.max (height e) n) 0 es.
Proof.
  induction es as [|e es IH]; simpl; [tauto|].
  intros [-> | Hin]; [lia|]. specialize (IH Hin). lia.
Qed.

Lemma height_prop (p : string * value) ps :
  In p ps ->
  height (snd p) <= fold_right (fun q n => Nat.max (height (snd q)) n) 0 ps.
Proof.
  induction ps as [|q ps IH]; simpl; [tauto|].
  intros [-> | Hin]; [lia|]. specialize (IH Hin). lia.
Qed.

Lemma field_cases ps key :
  field ps key = VUndef \/ In (key, field ps key) ps.
Proof.
  unfold field. destruct (assoc_get key ps) eqn:E; auto.
  right. now apply assoc_get_in.
Qed.

Lemma field_some ps k v : assoc_get k ps = Some v -> field ps k = v.
Proof. unfold field. now intros ->. Qed.

Lemma field_record_some ps k :
  is_record (field ps k) = true -> assoc_get k ps = Some (field ps k).
Proof.
  unfold field. destruct (assoc_get k ps); [reflexivity | discriminate].
Qed.

Lemma field_record_in ps k :
  is_record (field ps k) = true -> In k (keys ps).
Proof.
  intros E. apply field_record_some in E. apply assoc_get_in in E.
  apply (in_map fst) in E. exact E.
Qed.

Lemma getv_record pt k : getv (VObj pt) k = field pt k.
Proof. reflexivity. Qed.

Lemma recurses_record po t k :
  recurses (VObj po) t k = truthy (field po k) && is_record (getv t k).
Proof. reflexivity. Qed.

(** An own property that is a record lies deeper in the value. *)
Lemma height_getv t key :
  is_record (getv t key) = true -> height (getv t key) < height t.
Proof.
  destruct t as [| |b|n|s|es|ps]; simpl; try discriminate.
  - destruct (key =? "length"); simpl; [discriminate|].
    destruct (field_cases (indexed 0 (map VStr (chars s))) key) as [-> | Hin];
      [discriminate|].
    apply indexed_in in Hin. apply in_map_iff in Hin.
    destruct Hin as (c & <- & _). discriminate.
  - destruct (key =? "length"); simpl; [discriminate|].
    destruct (field_cases (indexed 0 es) key) as [-> | Hin]; [discriminate|].
    intros _. apply indexed_in in Hin. apply height_elem in Hin. lia.
  - destruct (field_cases ps key) as [-> | Hin]; [discriminate|].
    intros _. apply (height_prop (key, field ps key)) in Hin. simpl in Hin. lia.
Qed.

(** A record among the own properties is an enumerable one. *)
Lemma getv_record_own t k :
  is_record (getv t k) = true -> In k (keys (own_props t)).
Proof.
  destruct t as [| |b|n|s|es|ps]; simpl; try discriminate.
  - destruct (k =? "length"); [discriminate|]. apply field_record_in.
  - destruct (k =? "length"); [discriminate|]. apply field_record_in.
  - apply field_record_in.
Qed.

Lemma recurses_own o t k :
  recurses o t k = true -> In k (keys (own_props t)).
Proof.
  unfold recurses. intros E. apply andb_prop in E. destruct E as [_ E].
  now apply getv_record_own.
Qed.

Lemma fold_left_ext_in {B C} (f g : B -> C -> B) (l : list C) (b : B) :
  (forall x c, In c l -> f x c = g x c) -> fold_left f l b = fold_left g l b.
Proof.
  revert b. induction l as [|c l IH]; intros b Hfg; simpl; auto.
  rewrite Hfg by now left. apply IH. intros x c' Hc'. apply Hfg. now right.
Qed.

Lemma wf_record_keys ps : wf_value (VObj ps) -> NoDup (keys ps).
Proof. intros E. now inversion E. Qed.

Lemma wf_record_field ps k v :
  wf_value (VObj ps) -> assoc_get k ps = Some v -> wf_value v.
Proof.
  intros E Hk. inversion E as [| | | | | |? _ Hall]; subst.
  apply assoc_get_in in Hk. rewrite Forall_forall in Hall.
  apply (Hall (k, v)). exact Hk.
Qed.

Lemma nodup_keys_indexed {A} (l : list A) i : NoDup (keys (indexed i l)).
Proof.
  assert (Hinj : forall a b, index_key a = index_key b -> a = b).
  { intros a b E. unfold index_key in E.
    apply (f_equal NilEmpty.uint_of_string) in E.
    rewrite !NilEmpty.usu in E. injection E as E.
    apply (f_equal Nat.of_uint) in E.
    now rewrite !DecimalNat.Unsigned.of_to in E. }
  assert (Hge : forall (l : list A) i k, In k (keys (indexed i l)) ->
                  exists j, i <= j /\ k = index_key j).
  { clear l i. induction l as [|x l IH]; intros i k; simpl; [tauto|].
    intros [<- | Hin]; [exists i; split; auto|].
    destruct (IH _ _ Hin) as (j & Hj & ->). exists j. split; auto. lia. }
  revert i. induction l as [|x l IH]; intros i; simpl; constructor; auto.
  intros Hin. destruct (Hge _ _ _ Hin) as (j & Hj & E).
  apply Hinj in E. lia.
Qed.

(** ** Reading through the prototype chain *)

Section MergeFacts.

Context {realm : Realm}.

Lemma get_op_get x key : op_nullish x = false -> get x key = Ok (op_get x key).
Proof.
  unfold op_get. destruct x as [[| |b|n|s|es|ps]|k id]; simpl;
    try discriminate; intros _; auto; destruct (key =? "length"); reflexivity.
Qed.

Lemma get_nullish x key : op_nullish x = true -> get x key = Throw TypeError.
Proof. destruct x as [[| |b|n|s|es|ps]|k id]; simpl; auto; discriminate. Qed.

Lemma op_own_props_nullish x : op_nullish x = true -> op_own_props x = [].
Proof. destruct x as [[| |b|n|s|es|ps]|k id]; simpl; auto; discriminate. Qed.

Lemma op_truthy_nonnullish x : op_truthy x = true -> op_nullish x = false.
Proof. destruct x; simpl; auto. apply truthy_nonnullish. Qed.

Lemma object_test x :
  op_truthy x && op_typeof_object x && negb (op_isArray x) = op_is_record x.
Proof.
  destruct x as [v|[| |] id]; simpl; auto. apply object_test_is_record.
Qed.

(** Under a name without accessor the prototypes hold functions: what is
    inherited is no record. *)
Lemma inherited_plain k key :
  accessor key = false -> op_is_record (of_atom (inherited k key)) = false.
Proof.
  intros E. unfold inherited. rewrite E. now destruct (method k key).
Qed.

Lemma ordinary_accessor key : ordinary key = true -> accessor key = false.
Proof.
  unfold ordinary. intros E. apply andb_prop in E. destruct E as [E _].
  now destruct (accessor key).
Qed.

Lemma inherited_ordinary k key : ordinary key = true -> inherited k key = AUndef.
Proof.
  intros E. unfold inherited. rewrite (ordinary_accessor key E).
  unfold ordinary in E. apply andb_prop in E. destruct E as [_ E].
  rewrite forallb_forall in E.
  assert (Hin : In k kinds) by (destruct k; simpl; tauto).
  specialize (E k Hin). now destruct (method k key).
Qed.


Lemma lookup_ordinary k ps key :
  ordinary key = true -> lookup k ps key = Data (field ps key).
Proof.
  intros E. unfold lookup, field. destruct (assoc_get key ps); auto.
  now rewrite inherited_ordinary.
Qed.

Lemma lookup_record k ps key :
  accessor key = false -> op_is_record (lookup k ps key) = true ->
  lookup k ps key = Data (field ps key) /\ is_record (field ps key) = true.
Proof.
  intros Ha. unfold lookup, field. destruct (assoc_get key ps); simpl; auto.
  rewrite inherited_plain by assumption. discriminate.
Qed.

(** Under an ordinary name a read finds an own property or nothing. *)
Lemma op_get_ordinary o key :
  ordinary key = true -> op_get (Data o) key = Data (getv o key).
Proof.
  intros E. unfold op_get.
  destruct o as [| |b|n|s|es|ps]; simpl; auto.
  - now rewrite inherited_ordinary.
  - now rewrite inherited_ordinary.
  - destruct (key =? "length"); auto. now apply lookup_ordinary.
  - destruct (key =? "length"); auto. now apply lookup_ordinary.
  - now apply lookup_ordinary.
Qed.

(** A record read on data under a name without accessor is an own
    property. *)
Lemma target_read t key :
  accessor key = false -> op_is_record (op_get (Data t) key) = true ->
  op_get (Data t) key = Data (getv t key) /\ is_record (getv t key) = true.
Proof.
  intros Ha. unfold op_get.
  destruct t as [| |b|n|s|es|ps]; simpl; try discriminate.
  - rewrite inherited_plain by assumption. discriminate.
  - rewrite inherited_plain by assumption. discriminate.
  - destruct (key =? "length"); [discriminate|]. now apply lookup_record.
  - destruct (key =? "length"); [discriminate|]. now apply lookup_record.
  - now apply lookup_record.
Qed.


(** ** Object.assign *)

Lemma object_assign_keys_plain tgt src :
  (forall k, In k (keys tgt) -> accessor k = false) ->
  forall k, In k (keys (object_assign tgt src)) -> accessor k = false.
Proof. intros Ht. apply assign_set_keys_plain. exact Ht. Qed.

(** The new object holds no property under a name with an accessor. *)
Lemma base_keys_plain o t k :
  In k (keys (object_assign (object_assign [] o) t)) -> accessor k = false.
Proof.
  apply object_assign_keys_plain. apply object_assign_keys_plain.
  intros k' [].
Qed.



(** Where every own name is free of accessors the new object is the
    spread of the two. *)
Lemma base_spread o t :
  (forall k, In k (keys (op_own_props o)) -> accessor k = false) ->
  (forall k, In k (keys (op_own_props t)) -> accessor k = false) ->
  object_assign (object_assign [] o) t =
  assign_props (op_own_props t) (assign_props (op_own_props o) []).
Proof.
  intros Ho Ht. unfold object_assign.
  now rewrite !assign_set_props by assumption.
Qed.

(** ** The loop of mergeConfig *)

Lemma fold_left_throw rec o t ks e :
  fold_left (mergeConfig_step rec o t) ks (Throw e) = Throw e.
Proof. induction ks; simpl; auto. Qed.

Lemma mergeConfig_step_ext rec1 rec2 o t acc key :
  (op_recurses o t key = true ->
   rec1 (op_get o key) (op_get t key) = rec2 (op_get o key) (op_get t key)) ->
  mergeConfig_step rec1 o t acc key = mergeConfig_step rec2 o t acc key.
Proof.
  intros Hrec. unfold mergeConfig_step, op_recurses, op_get in *.
  destruct acc as [obj|e]; simpl; auto.
  destruct (get o key) as [ov|e]; simpl; auto.
  destruct (op_truthy ov) eqn:Tov; auto.
  destruct (get t key) as [tv|e]; simpl; auto.
  rewrite object_test.
  destruct (op_is_record tv) eqn:Rtv; auto.
  now rewrite Hrec.
Qed.

Lemma mergeConfig_step_cases rec o t acc key acc1 :
  mergeConfig_step rec o t (Ok acc) key = Ok acc1 ->
  acc1 = acc \/ exists m, acc1 = assoc_set key m acc.
Proof.
  unfold mergeConfig_step. cbn [obind].
  destruct (get o key) as [ov|e]; cbn [obind]; [|discriminate].
  destruct (op_truthy ov); [|intros [= <-]; now left].
  destruct (get t key) as [tv|e]; cbn [obind]; [|discriminate].
  destruct (op_truthy tv && op_typeof_object tv && negb (op_isArray tv));
    [|intros [= <-]; now left].
  destruct (rec ov tv) as [m|e]; cbn [obind]; [|discriminate].
  intros [= <-]. right. now exists m.
Qed.

(** The loop assigns to names the object has: it adds none and moves
    none. *)
Lemma mergeConfig_loop_keys rec o t ks :
  forall acc acc',
    (forall k, In k ks -> In k (keys acc)) ->
    fold_left (mergeConfig_step rec o t) ks (Ok acc) = Ok acc' ->
    keys acc' = keys acc.
Proof.
  induction ks as [|k ks IH]; intros acc acc' Hin; cbn [fold_left].
  - now intros [= <-].
  - destruct (mergeConfig_step rec o t (Ok acc) k) as [acc1|e] eqn:E.
    + intros Hfold.
      destruct (mergeConfig_step_cases rec o t acc k acc1 E) as [-> | [m ->]].
      * apply (IH acc acc'); auto. intros k' Hk'. apply Hin. now right.
      * rewrite (IH (assoc_set k m acc) acc'); auto.
        -- apply keys_assoc_set_in. apply Hin. now left.
        -- intros k' Hk'. rewrite keys_assoc_set_in by (apply Hin; now left).
           apply Hin. now right.
    + rewrite fold_left_throw. discriminate.
Qed.

(** The loop when neither argument is [null] or [undefined]: it ends
    normally as soon as the recursive calls do, and then a name holds the
    merged value if it passed the test and was visited, and keeps its value
    otherwise. *)
Lemma mergeConfig_loop rec o t ks :
  op_nullish o = false -> op_nullish t = false ->
  (forall k, In k ks -> op_recurses o t k = true ->
     exists m, rec (op_get o k) (op_get t k) = Ok m) ->
  forall acc, exists acc',
    fold_left (mergeConfig_step rec o t) ks (Ok acc) = Ok acc' /\
    forall k,
      assoc_get k acc' =
      if existsb (String.eqb k) ks && op_recurses o t k
      then match rec (op_get o k) (op_get t k) with
           | Ok m => Some m
           | Throw _ => assoc_get k acc
           end
      else assoc_get k acc.
Proof.
  intros Ho Ht. induction ks as [|key ks IH]; intros Hrec acc.
  - exists acc. split; auto.
  - cbn [fold_left].
    assert (Hstep : exists acc1,
      mergeConfig_step rec o t (Ok acc) key = Ok acc1 /\
      forall k, assoc_get k acc1 =
        if (k =? key) && op_recurses o t k
        then match rec (op_get o k) (op_get t k) with
             | Ok m => Some m
             | Throw _ => assoc_get k acc
             end
        else assoc_get k acc).
    { unfold mergeConfig_step. simpl.
      rewrite (get_op_get o key Ho). simpl.
      destruct (op_truthy (op_get o key)) eqn:Tov.
      - rewrite (get_op_get t key Ht). simpl.
        rewrite object_test.
        destruct (op_is_record (op_get t key)) eqn:Rtv.
        + destruct (Hrec key) as [m Hm]; [now left| |].
          { unfold op_recurses. now rewrite Tov, Rtv. }
          rewrite Hm. simpl. eexists. split; [reflexivity|].
          intros k. destruct (k =? key) eqn:E; simpl.
          * apply String.eqb_eq in E. subst k.
            unfold op_recurses. rewrite Tov, Rtv, Hm. simpl.
            apply assoc_get_set_eq.
          * apply String.eqb_neq in E. apply assoc_get_set_neq. congruence.
        + exists acc. split; auto. intros k.
          destruct (k =? key) eqn:E; simpl; auto.
          apply String.eqb_eq in E. subst k.
          unfold op_recurses. now rewrite Rtv, andb_false_r.
      - exists acc. split; auto. intros k.
        destruct (k =? key) eqn:E; simpl; auto.
        apply String.eqb_eq in E. subst k.
        unfold op_recurses. now rewrite Tov. }
    destruct Hstep as (acc1 & -> & Hacc1).
    destruct (IH (fun k Hk => Hrec k (or_intror Hk)) acc1)
      as (acc' & Hfold & Hacc').
    exists acc'. split; auto. intros k. rewrite Hacc', Hacc1. simpl existsb.
    destruct (k =? key) eqn:E; simpl.
    + destruct (op_recurses o t k) eqn:R; simpl.
      * rewrite andb_true_r.
        destruct (rec (op_get o k) (op_get t k));
          destruct (existsb (String.eqb k) ks); reflexivity.
      * now rewrite andb_false_r.
    + reflexivity.
Qed.

(** A loop in which no name passes the test leaves the object as it
    is. *)
Lemma mergeConfig_loop_idle rec o t ks :
  op_nullish o = false -> op_nullish t = false ->
  (forall k, In k ks -> op_recurses o t k = false) ->
  forall acc, fold_left (mergeConfig_step rec o t) ks (Ok acc) = Ok acc.
Proof.
  intros Ho Ht. induction ks as [|key ks IH]; intros Hno acc;
    cbn [fold_left]; auto.
  assert (Hstep : mergeConfig_step rec o t (Ok acc) key = Ok acc).
  { unfold mergeConfig_step. cbn [obind].
    rewrite (get_op_get o key Ho). cbn [obind].
    pose proof (Hno key (or_introl eq_refl)) as Hk. unfold op_recurses in Hk.
    destruct (op_truthy (op_get o key)); auto.
    rewrite (get_op_get t key Ht). cbn [obind]. rewrite object_test.
    cbn [andb] in Hk. now rewrite Hk. }
  rewrite Hstep. apply IH. intros k Hin. apply Hno. now right.
Qed.

(** ** The stack that mergeConfig needs *)

Lemma mergeConfig_rec_fuel n :
  forall m o t,
    height t < n -> height t < m ->
    mergeConfig_rec n o (Data t) = mergeConfig_rec m o (Data t).
Proof.
  induction n as [|n IH]; intros m o t Hn Hm; [lia|].
  destruct m as [|m]; [lia|]. simpl.
  f_equal. apply fold_left_ext_in. intros acc key Hin.
  apply mergeConfig_step_ext. intros Hr.
  unfold op_recurses in Hr. apply andb_prop in Hr. destruct Hr as [_ Hr].
  destruct (target_read t key (base_keys_plain o (Data t) key Hin) Hr)
    as [-> Hrec].
  apply height_getv in Hrec. apply IH; lia.
Qed.

(** A stack one deeper than the target is enough: more changes nothing. *)
Lemma mergeConfig_rec_enough n o t :
  height t < n -> mergeConfig_rec n o (Data t) = mergeConfig_from o t.
Proof. intros Hn. unfold mergeConfig_from. apply mergeConfig_rec_fuel; lia. Qed.

Lemma mergeConfig_from_data o t : mergeConfig o t = mergeConfig_from (Data o) t.
Proof. reflexivity. Qed.

(** Unfolding [mergeConfig] once. *)
Lemma mergeConfig_from_unfold o t :
  mergeConfig_from o t =
  let modifiedObj := object_assign (object_assign [] o) (Data t) in
  let? obj :=
    fold_left (mergeConfig_step (mergeConfig_rec (height t)) o (Data t))
      (keys modifiedObj) (Ok modifiedObj) in
  Ok (VObj obj).
Proof. reflexivity. Qed.

(** A call of the loop on an own record of the target. *)
Lemma mergeConfig_rec_child o t k :
  In k (keys (object_assign (object_assign [] o) (Data t))) ->
  op_recurses o (Data t) k = true ->
  is_record (getv t k) = true /\
  op_get (Data t) k = Data (getv t k) /\
  mergeConfig_rec (height t) (op_get o k) (op_get (Data t) k)
  = mergeConfig_from (op_get o k) (getv t k).
Proof.
  intros Hin Hr. unfold op_recurses in Hr. apply andb_prop in Hr.
  destruct Hr as [_ Hr].
  destruct (target_read t k (base_keys_plain o (Data t) k Hin) Hr)
    as [E Hrec].
  split; [exact Hrec|]. split; [exact E|]. rewrite E.
  apply mergeConfig_rec_enough. now apply height_getv.
Qed.

(** ** What mergeConfig returns *)

(** [mergeConfig] returns a record whenever neither argument is [null] or
    [undefined]; its properties are those of
    [Object.assign({}, o, t)], except where the test of the loop holds:
    there the property is the result of the recursive call. *)
Lemma mergeConfig_fields_aux n :
  forall o t, height t < n ->
  op_nullish o = false -> nullish t = false ->
  exists r,
    mergeConfig_from o t = Ok (VObj r) /\
    keys r = keys (object_assign (object_assign [] o) (Data t)) /\
    forall k,
      if existsb (String.eqb k)
           (keys (object_assign (object_assign [] o) (Data t)))
         && op_recurses o (Data t) k
      then exists m,
             mergeConfig_from (op_get o k) (getv t k) = Ok (VObj m) /\
             assoc_get k r = Some (VObj m)
      else assoc_get k r =
           assoc_get k (object_assign (object_assign [] o) (Data t)).
Proof.
  induction n as [|n IH]; intros o t Hn Ho Ht; [lia|].
  set (base := object_assign (object_assign [] o) (Data t)).
  assert (Hchild : forall k, In k (keys base) ->
            op_recurses o (Data t) k = true ->
            exists m,
              mergeConfig_rec (height t) (op_get o k) (op_get (Data t) k)
              = Ok (VObj m) /\
              mergeConfig_from (op_get o k) (getv t k) = Ok (VObj m)).
  { intros k Hin Hr.
    destruct (mergeConfig_rec_child o t k Hin Hr) as (Hrec & _ & E).
    destruct (IH (op_get o k) (getv t k)) as (m & Hm & _).
    - apply height_getv in Hrec. lia.
    - unfold op_recurses in Hr. apply andb_prop in Hr.
      apply op_truthy_nonnullish. apply Hr.
    - now apply is_record_nonnullish.
    - exists m. rewrite E. auto. }
  rewrite mergeConfig_from_unfold. cbv zeta. fold base.
  destruct (mergeConfig_loop (mergeConfig_rec (height t)) o (Data t)
              (keys base) Ho Ht) with (acc := base)
    as (acc' & Hfold & Hacc').
  { intros k Hin Hr. destruct (Hchild k Hin Hr) as (m & Hm & _). eauto. }
  rewrite Hfold. simpl. exists acc'. split; auto. split.
  { eapply mergeConfig_loop_keys; [|exact Hfold]. auto. }
  intros k. rewrite Hacc'.
  destruct (existsb (String.eqb k) (keys base) && op_recurses o (Data t) k)
    eqn:E; auto.
  apply andb_prop in E. destruct E as [E1 E2]. apply existsb_eqb_iff in E1.
  destruct (Hchild k E1 E2) as (m & Hm & Hm'). exists m. now rewrite Hm.
Qed.

Lemma mergeConfig_fields o t :
  op_nullish o = false -> nullish t = false ->
  exists r,
    mergeConfig_from o t = Ok (VObj r) /\
    keys r = keys (object_assign (object_assign [] o) (Data t)) /\
    forall k,
      if existsb (String.eqb k)
           (keys (object_assign (object_assign [] o) (Data t)))
         && op_recurses o (Data t) k
      then exists m,
             mergeConfig_from (op_get o k) (getv t k) = Ok (VObj m) /\
             assoc_get k r = Some (VObj m)
      else assoc_get k r =
           assoc_get k (object_assign (object_assign [] o) (Data t)).
Proof. apply (mergeConfig_fields_aux (S (height t))). lia. Qed.



(** Where no name passes the test the merge is [Object.assign]. *)
Lemma mergeConfig_flat o t :
  op_nullish o = false -> nullish t = false ->
  (forall k, In k (keys (object_assign (object_assign [] o) (Data t))) ->
     op_recurses o (Data t) k = false) ->
  mergeConfig_from o t = Ok (VObj (object_assign (object_assign [] o) (Data t))).
Proof.
  intros Ho Ht Hno. rewrite mergeConfig_from_unfold. cbv zeta.
  now rewrite mergeConfig_loop_idle.
Qed.

(** ** Data with ordinary names *)

Lemma ordinary_own_props v k :
  ordinary_value v = true -> In k (keys (own_props v)) -> ordinary k = true.
Proof.
  destruct v as [| |b|n|s|es|ps]; simpl; try tauto.
  - intros E Hin. rewrite forallb_forall in E.
    assert (Hk : forall (l : list string) i,
              keys (indexed i (map VStr l)) = keys (indexed i l)).
    { induction l as [|x l IHl]; intros i; simpl; auto. now rewrite IHl. }
    rewrite Hk in Hin. auto.
  - intros E Hin. apply andb_prop in E. destruct E as [E _].
    rewrite forallb_forall in E. auto.
  - intros E Hin. rewrite forallb_forall in E.
    unfold keys in Hin. apply in_map_iff in Hin.
    destruct Hin as (p & <- & Hp). specialize (E p Hp).
    apply andb_prop in E. apply E.
Qed.

Lemma ordinary_field ps k :
  ordinary_value (VObj ps) = true -> ordinary_value (field ps k) = true.
Proof.
  simpl. intros E. destruct (field_cases ps k) as [-> | Hin]; auto.
  rewrite forallb_forall in E. specialize (E _ Hin).
  apply andb_prop in E. apply E.
Qed.

Lemma ordinary_char s i k :
  ordinary_value (VStr s) = true ->
  ordinary_value (field (indexed i (map VStr (chars s))) k) = true.
Proof.
  intros E. destruct (field_cases (indexed i (map VStr (chars s))) k)
    as [-> | Hin]; auto.
  apply indexed_in in Hin. apply in_map_iff in Hin.
  destruct Hin as (c & <- & Hc).
  assert (Hone : exists a, c = String a EmptyString).
  { clear E. induction s as [|a s IHs]; simpl in Hc; [tauto|].
    destruct Hc as [<- | Hc]; eauto. }
  destruct Hone as [a ->]. simpl. rewrite andb_true_r.
  destruct s as [|b s]; [destruct Hc|]. simpl in E.
  apply andb_prop in E. apply E.
Qed.

Lemma ordinary_elem es i k :
  forallb ordinary_value es = true ->
  ordinary_value (field (indexed i es) k) = true.
Proof.
  intros E. destruct (field_cases (indexed i es) k) as [-> | Hin]; auto.
  apply indexed_in in Hin. rewrite forallb_forall in E. auto.
Qed.

(** The own properties of data with ordinary names are such data. *)
Lemma ordinary_getv o k :
  ordinary_value o = true -> ordinary_value (getv o k) = true.
Proof.
  intros E. destruct o as [| |b|n|s|es|ps]; simpl; auto.
  - destruct (k =? "length"); auto. now apply ordinary_char.
  - destruct (k =? "length"); auto. simpl in E. apply andb_prop in E.
    now apply ordinary_elem.
  - now apply ordinary_field.
Qed.

(** On data under an ordinary name a read is a read of own properties. *)
Lemma get_data_ordinary o key :
  ordinary key = true ->
  get (Data o) key =
  if nullish o then Throw TypeError else Ok (Data (getv o key)).
Proof.
  intros E. destruct (nullish o) eqn:N.
  - now apply get_nullish.
  - rewrite get_op_get by assumption. now rewrite op_get_ordinary.
Qed.

Lemma base_ordinary o t :
  ordinary_value o = true -> ordinary_value t = true ->
  object_assign (object_assign [] (Data o)) (Data t) =
  assign_props (own_props t) (assign_props (own_props o) []) /\
  forall k, In k (keys (assign_props (own_props t) (assign_props (own_props o) [])))
            -> ordinary k = true.
Proof.
  intros Eo Et. split.
  - apply base_spread; intros k Hin; apply ordinary_accessor.
    + exact (ordinary_own_props o k Eo Hin).
    + exact (ordinary_own_props t k Et Hin).
  - intros k Hin. apply in_keys_assign_inv in Hin. destruct Hin as [Hin | Hin].
    + exact (ordinary_own_props t k Et Hin).
    + apply in_keys_assign_inv in Hin. destruct Hin as [Hin | []].
      exact (ordinary_own_props o k Eo Hin).
Qed.

End MergeFacts.

(** In the realm without built-ins every name is ordinary. *)
Lemma bare_ordinary key : @ordinary bare key = true.
Proof. reflexivity. Qed.

Lemma bare_ordinary_value v : @ordinary_value bare v = true.
Proof.
  assert (Hall : forall (l : list string), forallb (@ordinary bare) l = true)
    by (induction l; simpl; auto).
  revert v. fix IH 1. intros [| |b|n|s|es|ps]; simpl; auto.
  - rewrite Hall. simpl. induction es as [|e es IHes]; simpl; auto.
    now rewrite (IH e), IHes.
  - induction ps as [|[k v] ps IHps]; simpl; auto.
    now rewrite (IH v), IHps.
Qed.

Section Ordinary.

Context {realm : Realm}.

(** On data in which every name is ordinary [mergeConfig] computes what it
    computes where there are no built-ins at all. *)
Lemma mergeConfig_rec_ordinary n :
  forall o t,
    ordinary_value o = true -> ordinary_value t = true ->
    mergeConfig_rec n (Data o) (Data t)
    = @mergeConfig_rec bare n (Data o) (Data t).
Proof.
  induction n as [|n IH]; intros o t Eo Et; [reflexivity|].
  cbn [mergeConfig_rec].
  destruct (base_ordinary o t Eo Et) as [-> Hks].
  destruct (@base_ordinary bare o t (bare_ordinary_value o)
              (bare_ordinary_value t)) as [-> _].
  set (base := assign_props (own_props t) (assign_props (own_props o) [])) in *.
  assert (Hloop : forall ks acc,
            (forall k, In k ks -> ordinary k = true) ->
            fold_left (mergeConfig_step (mergeConfig_rec n) (Data o) (Data t))
              ks acc
            = fold_left (@mergeConfig_step bare (@mergeConfig_rec bare n)
                           (Data o) (Data t)) ks acc).
  { induction ks as [|k ks IHks]; intros acc Hord; cbn [fold_left]; auto.
    rewrite <- IHks by (intros k' Hk'; apply Hord; now right). f_equal.
    unfold mergeConfig_step. destruct acc as [obj|e]; cbn [obind]; auto.
    rewrite !get_data_ordinary by (apply Hord; now left).
    rewrite !(@get_data_ordinary bare) by apply bare_ordinary.
    destruct (nullish o); cbn [obind]; auto.
    destruct (op_truthy (Data (getv o k))); auto.
    destruct (nullish t); cbn [obind]; auto.
    destruct (op_truthy (Data (getv t k)) && op_typeof_object (Data (getv t k))
              && negb (op_isArray (Data (getv t k)))); auto.
    rewrite IH; auto using ordinary_getv. }
  now rewrite Hloop.
Qed.

Lemma mergeConfig_ordinary o t :
  ordinary_value o = true -> ordinary_value t = true ->
  mergeConfig o t = @mergeConfig bare o t.
Proof. intros Eo Et. unfold mergeConfig. now apply mergeConfig_rec_ordinary. Qed.

End Ordinary.

(** ** mergeConfig on records *)

Section MergeTheorems.

Context {realm : Realm}.



(** A value that is falsy without being [null] or [undefined] leaves the
    target alone. *)
Lemma mergeConfig_over_primitive o pt :
  nullish o = false -> own_props o = [] ->
  NoDup (keys pt) ->
  (forall k, In k (keys pt) ->
     accessor k = false /\ op_truthy (op_get (Data o) k) = false) ->
  mergeConfig o (VObj pt) = Ok (VObj pt).
Proof.
  intros Ho Hown Hnd Hk. rewrite mergeConfig_from_data.
  assert (Hbase : object_assign (object_assign [] (Data o)) (Data (VObj pt))
                  = pt).
  { rewrite base_spread; simpl.
    - rewrite Hown. change (assign_props [] []) with (@nil (string * value)).
      now apply assign_props_nil.
    - rewrite Hown. intros k [].
    - intros k Hin. now apply Hk. }
  rewrite mergeConfig_flat; auto; rewrite Hbase; auto.
  intros k Hin. unfold op_recurses.
  destruct (Hk k Hin) as [_ ->]. reflexivity.
Qed.



(** ** mergeConfig: names *)




(** ** mergeConfig: when it raises *)


Lemma mergeConfig_nullish_origin n o t :
  op_nullish o = true ->
  mergeConfig_rec (S n) o t =
  match keys (object_assign [] t) with
  | [] => Ok (VObj [])
  | _ :: _ => Throw TypeError
  end.
Proof.
  intros Ho. cbn [mergeConfig_rec].
  assert (E : object_assign [] o = []).
  { unfold object_assign. now rewrite (op_own_props_nullish o Ho). }
  rewrite E. destruct (object_assign [] t) as [|[k v] ps] eqn:Eb.
  - reflexivity.
  - cbn [keys map fst fold_left]. unfold mergeConfig_step at 2. cbn [obind].
    rewrite (get_nullish o k Ho). cbn [obind].
    now rewrite fold_left_throw.
Qed.





(** ** mergeConfig: the empty record *)

(** X10.  The empty record is neutral on both sides for a record with
    ordinary names: merging [{}] onto it, or it onto [{}], gives a record
    with the same properties in the same order.  For the first an absence
    of accessors under its names is enough. *)
Theorem mergeConfig_empty ps :
  NoDup (keys ps) ->
  ((forall k, In k (keys ps) -> accessor k = false) ->
   mergeConfig (VObj ps) (VObj []) = Ok (VObj ps)) /\
  ((forall k, In k (keys ps) -> ordinary k = true) ->
   mergeConfig (VObj []) (VObj ps) = Ok (VObj ps)).
Proof.
  intros Hnd. split.
  - intros Hacc. rewrite mergeConfig_from_data.
    assert (Hbase : object_assign (object_assign [] (Data (VObj ps)))
                      (Data (VObj [])) = ps).
    { rewrite base_spread; simpl; auto; [|intros k []].
      unfold assign_props at 1. cbn [fold_left]. now apply assign_props_nil. }
    rewrite mergeConfig_flat; auto; rewrite Hbase; auto.
    intros k Hin. unfold op_recurses, op_get. simpl. unfold lookup. simpl.
    rewrite inherited_plain by auto. apply andb_false_r.
  - intros Hord. apply mergeConfig_over_primitive; auto.
    intros k Hin. split; [apply ordinary_accessor; auto|].
    rewrite op_get_ordinary by auto. reflexivity.
Qed.

(** ** mergeConfig: well-formed results *)










End MergeTheorems.

(** ** mergeConfig where every name is ordinary

    In the realm without built-ins a read is a read of own properties and
    an assignment creates a property.  The structure of the merge is
    studied there; [mergeConfig_ordinary] carries the results to data with
    ordinary names in any realm. *)

Lemma deep_ind_field (P : value -> Prop) ps k v :
  Forall (fun p => P (snd p)) ps -> assoc_get k ps = Some v -> P v.
Proof.
  intros Hall Hk. apply assoc_get_in in Hk. rewrite Forall_forall in Hall.
  apply (Hall (k, v) Hk).
Qed.

Lemma get_path_nonrecord path v :
  path <> [] -> is_record v = false -> get_path path v = None.
Proof. destruct path; [congruence|]. destruct v; simpl; auto; discriminate. Qed.

Section Bare.

Local Existing Instance bare.

Local Abbreviation overlay o t :=
  (assign_props (own_props t) (assign_props (own_props o) [])).

Lemma bare_base o t :
  object_assign (object_assign [] (Data o)) (Data t) = overlay o t.
Proof.
  apply (@base_ordinary bare o t (bare_ordinary_value o)
           (bare_ordinary_value t)).
Qed.

Lemma bare_recurses o t k :
  op_recurses (Data o) (Data t) k = recurses o t k.
Proof.
  unfold op_recurses, recurses.
  now rewrite !(@op_get_ordinary bare) by apply bare_ordinary.
Qed.

Lemma in_keys_overlay o t k :
  In k (keys (own_props t)) -> In k (keys (overlay o t)).
Proof. intros Hin. apply in_keys_assign. now left. Qed.

Lemma nodup_keys_overlay o t : NoDup (keys (overlay o t)).
Proof. apply nodup_keys_assign. apply nodup_keys_assign. constructor. Qed.

Lemma overlay_lookup_record o pt k :
  NoDup (keys pt) ->
  assoc_get k (overlay o (VObj pt)) =
  match assoc_get k pt with
  | Some v => Some v
  | None => assoc_get k (assign_props (own_props o) [])
  end.
Proof. intros Hnd. cbn [own_props]. now apply assoc_get_assign. Qed.

(** [mergeConfig] returns a record whenever neither argument is [null] or
    [undefined]; its properties are those of the spread of the two, except
    where the test of the loop holds: there the property is the result of
    the recursive call. *)
Lemma bare_fields o t :
  nullish o = false -> nullish t = false ->
  exists r,
    mergeConfig o t = Ok (VObj r) /\
    keys r = keys (overlay o t) /\
    forall k,
      (recurses o t k = true ->
       exists m, mergeConfig (getv o k) (getv t k) = Ok (VObj m) /\
                 assoc_get k r = Some (VObj m)) /\
      (recurses o t k = false ->
       assoc_get k r = assoc_get k (overlay o t)).
Proof.
  intros Ho Ht.
  destruct (@mergeConfig_fields bare (Data o) t Ho Ht)
    as (r & Hr & Hkeys & Hk).
  rewrite bare_base in Hkeys, Hk.
  exists r. split; [exact Hr|]. split; [exact Hkeys|].
  intros k. specialize (Hk k). rewrite bare_recurses in Hk.
  rewrite (@op_get_ordinary bare) in Hk by apply bare_ordinary.
  split; intros Hr'; rewrite Hr' in Hk.
  - rewrite existsb_eqb_in in Hk; [exact Hk|].
    apply in_keys_overlay. eapply recurses_own. eassumption.
  - rewrite andb_false_r in Hk. exact Hk.
Qed.

Lemma bare_self_aux v :
  wf_value v -> is_record v = true -> mergeConfig v v = Ok v.
Proof.
  induction v as [| |b|n|s|xs IH|ps IH] using value_deep_ind;
    intros Hwf Hrec; try discriminate.
  pose proof (wf_record_keys ps Hwf) as Hnd.
  destruct (bare_fields (VObj ps) (VObj ps) eq_refl eq_refl)
    as (r & Hr & Hkeys & Hk).
  rewrite Hr. do 2 f_equal.
  cbn [own_props] in Hkeys, Hk. rewrite (assign_props_nil ps Hnd) in Hkeys, Hk.
  assert (Hbase : forall k, assoc_get k (assign_props ps ps) = assoc_get k ps).
  { intros k. rewrite assoc_get_assign by assumption.
    now destruct (assoc_get k ps). }
  apply props_ext.
  - rewrite Hkeys. apply keys_assign_within. auto.
  - rewrite Hkeys. now apply nodup_keys_assign.
  - intros k. destruct (Hk k) as [Hyes Hno].
    destruct (recurses (VObj ps) (VObj ps) k) eqn:R.
    + destruct (Hyes eq_refl) as (m & Hm & Hrm). rewrite Hrm.
      rewrite recurses_record, getv_record in R.
      apply andb_prop in R. destruct R as [_ R].
      rewrite !getv_record in Hm.
      pose proof (field_record_some ps k R) as Hf. rewrite Hf.
      pose proof (deep_ind_field
                    (fun v => wf_value v -> is_record v = true ->
                              mergeConfig v v = Ok v)
                    ps k _ IH Hf) as Hself. cbv beta in Hself.
      rewrite Hself in Hm; auto.
      * congruence.
      * eapply wf_record_field; eassumption.
    + rewrite (Hno eq_refl). apply Hbase.
Qed.

Lemma bare_absorb_aux t :
  wf_value t -> is_record t = true ->
  forall o r, nullish o = false ->
    mergeConfig o t = Ok r -> mergeConfig r t = Ok r.
Proof.
  induction t as [| |b|n|s|xs IH|pt IH] using value_deep_ind;
    intros Hwf Hrec o r Ho Hmerge; try discriminate.
  pose proof (wf_record_keys pt Hwf) as Hnd.
  destruct (bare_fields o (VObj pt) Ho eq_refl) as (rr & Hr & Hkeys & Hk).
  rewrite Hr in Hmerge. injection Hmerge as <-.
  assert (Hndr : NoDup (keys rr))
    by (rewrite Hkeys; apply nodup_keys_overlay).
  destruct (bare_fields (VObj rr) (VObj pt) eq_refl eq_refl)
    as (r2 & Hr2 & Hkeys2 & Hk2).
  rewrite Hr2. do 2 f_equal.
  cbn [own_props] in Hkeys2, Hk2.
  rewrite (assign_props_nil rr Hndr) in Hkeys2, Hk2.
  assert (Hbase2 : forall k,
            assoc_get k (assign_props pt rr)
            = match assoc_get k pt with
              | Some v => Some v
              | None => assoc_get k rr
              end).
  { intros k. now apply assoc_get_assign. }
  apply props_ext.
  - rewrite Hkeys2. apply keys_assign_within.
    intros k Hin. rewrite Hkeys. now apply in_keys_overlay.
  - rewrite Hkeys2. now apply nodup_keys_assign.
  - intros k. destruct (Hk k) as [Hyes Hno]. destruct (Hk2 k) as [Hyes2 Hno2].
    rewrite recurses_record, getv_record in Hyes2, Hno2.
    rewrite !getv_record in Hyes2.
    destruct (is_record (field pt k)) eqn:Rt.
    + pose proof (field_record_some pt k Rt) as Hf.
      assert (Hwft : wf_value (field pt k))
        by (eapply wf_record_field; eassumption).
      assert (Hrrk : exists m, assoc_get k rr = Some (VObj m) /\
                               mergeConfig (VObj m) (field pt k) = Ok (VObj m)).
      { destruct (recurses o (VObj pt) k) eqn:R.
        - destruct (Hyes eq_refl) as (m & Hm & Hrm). exists m. split; auto.
          rewrite getv_record in Hm.
          apply (deep_ind_field
                   (fun t => wf_value t -> is_record t = true ->
                             forall o r, nullish o = false ->
                               mergeConfig o t = Ok r -> mergeConfig r t = Ok r)
                   pt k _ IH Hf Hwft Rt (getv o k)); auto.
          unfold recurses in R. apply andb_prop in R.
          apply truthy_nonnullish. apply R.
        - rewrite (Hno eq_refl), overlay_lookup_record, Hf by assumption.
          destruct (field pt k) as [| | | | | |m] eqn:Efield; try discriminate.
          exists m. split; auto. now apply bare_self_aux. }
      destruct Hrrk as (m & Hrrk & Hmm).
      rewrite (field_some rr k _ Hrrk) in Hyes2. cbn [truthy andb] in Hyes2.
      destruct (Hyes2 eq_refl) as (m2 & Hm2 & Hr2k).
      rewrite Hr2k, Hrrk. congruence.
    + rewrite andb_false_r in Hno2. rewrite (Hno2 eq_refl), Hbase2.
      destruct (assoc_get k pt) as [v|] eqn:Et; auto.
      unfold recurses in Hno. rewrite getv_record, Rt, andb_false_r in Hno.
      rewrite (Hno eq_refl), overlay_lookup_record, Et by assumption.
      reflexivity.
Qed.

Lemma bare_target_leaves_aux path :
  forall t o r v,
    wf_value t -> is_record t = true -> nullish o = false ->
    mergeConfig o t = Ok r ->
    path <> [] -> get_path path t = Some v -> is_record v = false ->
    get_path path r = Some v.
Proof.
  induction path as [|k rest IH]; intros t o r v Hwf Hrec Ho Hm Hne Hpath Hv;
    [congruence|].
  destruct t as [| | | | | |pt]; try discriminate.
  pose proof (wf_record_keys pt Hwf) as Hnd.
  destruct (bare_fields o (VObj pt) Ho eq_refl) as (rr & Hr & _ & Hk).
  rewrite Hr in Hm. injection Hm as <-.
  cbn [get_path] in Hpath |- *.
  destruct (assoc_get k pt) as [x|] eqn:Ex; [|discriminate].
  destruct (Hk k) as [Hyes Hno].
  unfold recurses in Hyes, Hno. rewrite getv_record in Hyes, Hno.
  rewrite (field_some pt k x Ex) in Hyes, Hno.
  destruct (truthy (getv o k) && is_record x) eqn:R.
  - destruct (Hyes eq_refl) as (m & Hmx & Hrk). rewrite Hrk.
    apply andb_prop in R. destruct R as [Rt Rx].
    destruct rest as [|k' rest'].
    + cbn [get_path] in Hpath. injection Hpath as <-. congruence.
    + apply (IH x (getv o k) (VObj m) v); auto.
      * eapply wf_record_field; eassumption.
      * now apply truthy_nonnullish.
      * discriminate.
  - rewrite (Hno eq_refl), overlay_lookup_record, Ex by assumption.
    exact Hpath.
Qed.

Lemma bare_origin_leaves_aux path :
  forall o t r v,
    wf_value o -> wf_value t -> is_record t = true ->
    mergeConfig o t = Ok r ->
    get_path path o = Some v -> untouched path t = true ->
    get_path path r = Some v.
Proof.
  induction path as [|k rest IH]; intros o t r v Hwo Hwt Hrec Hm Hpath Hun;
    [discriminate|].
  destruct t as [| | | | | |pt]; try discriminate.
  destruct o as [| | | | | |po]; try discriminate.
  pose proof (wf_record_keys pt Hwt) as Hndt.
  pose proof (wf_record_keys po Hwo) as Hndo.
  destruct (bare_fields (VObj po) (VObj pt) eq_refl eq_refl)
    as (rr & Hr & _ & Hk).
  rewrite Hr in Hm. injection Hm as <-.
  cbn [get_path untouched] in Hpath, Hun |- *.
  destruct (assoc_get k po) as [y|] eqn:Ey; [|discriminate].
  destruct (Hk k) as [Hyes Hno].
  unfold recurses in Hyes, Hno. rewrite !getv_record in Hyes, Hno.
  rewrite (field_some po k y Ey) in Hyes, Hno.
  destruct (assoc_get k pt) as [x|] eqn:Ex.
  - apply andb_prop in Hun. destruct Hun as [Rx Hun].
    rewrite (field_some pt k x Ex), Rx in Hyes, Hno.
    destruct rest as [|k' rest']; [discriminate|].
    assert (Ry : is_record y = true).
    { destruct (is_record y) eqn:E; auto.
      pose proof (get_path_nonrecord (k' :: rest') y
                    ltac:(discriminate) E) as Hnone.
      congruence. }
    assert (Ty : truthy y = true)
      by (destruct y; try discriminate Ry; reflexivity).
    rewrite Ty in Hyes. destruct (Hyes eq_refl) as (m & Hmx & Hrk).
    rewrite Hrk. apply (IH y x (VObj m) v); auto.
    + exact (wf_record_field po k y Hwo Ey).
    + exact (wf_record_field pt k x Hwt Ex).
  - assert (Hf : field pt k = VUndef) by (unfold field; now rewrite Ex).
    rewrite Hf in Hno. cbn [is_record] in Hno. rewrite andb_false_r in Hno.
    rewrite (Hno eq_refl), overlay_lookup_record, Ex by assumption.
    cbn [own_props].
    rewrite (assign_props_nil po Hndo), Ey. exact Hpath.
Qed.

End Bare.

(** ** mergeConfig on data with ordinary names *)

Section OrdinaryTheorems.

Context {realm : Realm}.

(** What is merged from data with ordinary names has ordinary names. *)
Lemma ordinary_in_props ps :
  ordinary_value (VObj ps) = true <->
  forall k v, In (k, v) ps -> ordinary k = true /\ ordinary_value v = true.
Proof.
  simpl. rewrite forallb_forall. split.
  - intros E k v Hin. specialize (E _ Hin). simpl in E.
    now apply andb_prop in E.
  - intros E [k v] Hin. simpl. destruct (E k v Hin) as [-> ->]. reflexivity.
Qed.

Lemma ordinary_own_values o k v :
  ordinary_value o = true -> In (k, v) (own_props o) ->
  ordinary k = true /\ ordinary_value v = true.
Proof.
  intros E Hin. split.
  - apply (ordinary_own_props o k E). apply (in_map fst) in Hin. exact Hin.
  - destruct o as [| |b|n|s|es|ps]; simpl in Hin; try tauto.
    + pose proof (ordinary_char s 0 k E) as Hc.
      assert (Hnd : NoDup (keys (indexed 0 (map VStr (chars s)))))
        by apply nodup_keys_indexed.
      now rewrite (field_some _ k v (in_assoc_get k v _ Hnd Hin)) in Hc.
    + simpl in E. apply andb_prop in E. destruct E as [_ E].
      apply indexed_in in Hin. rewrite forallb_forall in E. auto.
    + apply (proj1 (ordinary_in_props ps) E k v Hin).
Qed.

Lemma ordinary_merge_aux t :
  is_record t = true -> ordinary_value t = true ->
  forall o r, nullish o = false -> ordinary_value o = true ->
    @mergeConfig bare o t = Ok r -> ordinary_value r = true.
Proof.
  induction t as [| |b|n|s|xs IH|pt IH] using value_deep_ind;
    intros Hrec Et o r Ho Eo Hmerge; try discriminate.
  destruct (bare_fields o (VObj pt) Ho eq_refl) as (rr & Hr & Hkeys & Hk).
  rewrite Hr in Hmerge. injection Hmerge as <-.
  assert (Hndr : NoDup (keys rr))
    by (rewrite Hkeys; apply nodup_keys_overlay).
  apply ordinary_in_props. intros k v Hin.
  pose proof (in_assoc_get k v rr Hndr Hin) as Hget.
  assert (Hbase : forall w, In (k, w) (assign_props (own_props (VObj pt))
                                         (assign_props (own_props o) [])) ->
                    ordinary k = true /\ ordinary_value w = true).
  { intros w Hw. apply in_assign_props in Hw. destruct Hw as [Hw | Hw].
    - exact (ordinary_own_values (VObj pt) k w Et Hw).
    - apply in_assign_props in Hw. destruct Hw as [Hw | []].
      exact (ordinary_own_values o k w Eo Hw). }
  destruct (Hk k) as [Hyes Hno].
  destruct (recurses o (VObj pt) k) eqn:R.
  - destruct (Hyes eq_refl) as (m & Hm & Hrm).
    assert (v = VObj m) by congruence. subst v.
    unfold recurses in R. apply andb_prop in R. destruct R as [Rt Rr].
    rewrite getv_record in Hm, Rr.
    pose proof (field_record_some pt k Rr) as Hf.
    split.
    + apply (ordinary_own_props (VObj pt) k Et). simpl.
      apply assoc_get_in in Hf. apply (in_map fst) in Hf. exact Hf.
    + apply (deep_ind_field
               (fun t => is_record t = true -> ordinary_value t = true ->
                         forall o r, nullish o = false ->
                           ordinary_value o = true ->
                           @mergeConfig bare o t = Ok r ->
                           ordinary_value r = true)
               pt k _ IH Hf Rr) with (o := getv o k); auto.
      * now apply ordinary_field.
      * now apply truthy_nonnullish.
      * now apply ordinary_getv.
  - rewrite (Hno eq_refl) in Hget. apply assoc_get_in in Hget.
    now apply Hbase.
Qed.

(** X11.  Merging a record with ordinary names onto itself changes
    nothing. *)
Theorem mergeConfig_idempotent ps :
  wf_value (VObj ps) -> ordinary_value (VObj ps) = true ->
  mergeConfig (VObj ps) (VObj ps) = Ok (VObj ps).
Proof.
  intros Hwf Eo. rewrite mergeConfig_ordinary by assumption.
  now apply bare_self_aux.
Qed.

(** X12.  Applying the same target a second time changes nothing: for a
    record [target] and an [origin] that is not [null] or [undefined],
    both with ordinary names, merging [target] onto
    [mergeConfig(origin, target)] returns that same record. *)
Theorem mergeConfig_absorbs o pt r :
  wf_value (VObj pt) -> nullish o = false ->
  ordinary_value o = true -> ordinary_value (VObj pt) = true ->
  mergeConfig o (VObj pt) = Ok r ->
  mergeConfig r (VObj pt) = Ok r.
Proof.
  intros Hwf Ho Eo Et Hm. rewrite mergeConfig_ordinary in Hm by assumption.
  rewrite mergeConfig_ordinary; auto.
  - exact (bare_absorb_aux (VObj pt) Hwf eq_refl o r Ho Hm).
  - exact (ordinary_merge_aux (VObj pt) eq_refl Et o r Ho Eo Hm).
Qed.

(** X14.  The target wins at every depth: where the names are ordinary, a
    value that is not a record (a scalar, [null] or an array) found in the
    target under a path of property names is found under the same path in
    the merged record, whatever the origin holds there. *)
Theorem target_leaves_win path pt o r v :
  wf_value (VObj pt) -> nullish o = false ->
  ordinary_value o = true -> ordinary_value (VObj pt) = true ->
  mergeConfig o (VObj pt) = Ok r ->
  path <> [] -> get_path path (VObj pt) = Some v -> is_record v = false ->
  get_path path r = Some v.
Proof.
  intros Hwf Ho Eo Et Hm. rewrite mergeConfig_ordinary in Hm by assumption.
  exact (bare_target_leaves_aux path (VObj pt) o r v Hwf eq_refl Ho Hm).
Qed.

(** X15.  The origin survives where the target is silent: where the names
    are ordinary, a value found in the origin under a path is found under
    the same path in the merged record when the target, following the path
    through records, comes to lack the next name. *)
Theorem origin_leaves_survive path po pt r v :
  wf_value (VObj po) -> wf_value (VObj pt) ->
  ordinary_value (VObj po) = true -> ordinary_value (VObj pt) = true ->
  mergeConfig (VObj po) (VObj pt) = Ok r ->
  get_path path (VObj po) = Some v -> untouched path (VObj pt) = true ->
  get_path path r = Some v.
Proof.
  intros Hwo Hwt Eo Et Hm. rewrite mergeConfig_ordinary in Hm by assumption.
  exact (bare_origin_leaves_aux path (VObj po) (VObj pt) r v Hwo Hwt eq_refl Hm).
Qed.

End OrdinaryTheorems.

(** ** Deep equality *)



Lemma isEqual_arr xs ys : isEqual (VArr xs) (VArr ys) = elems_equal xs ys.
Proof.
  simpl. revert ys. induction xs as [|x xs IH]; intros [|y ys]; simpl; auto.
Qed.

Lemma isEqual_obj ps qs :
  isEqual (VObj ps) (VObj qs) =
  (List.length ps =? List.length qs)%nat && forallb (prop_in qs) ps.
Proof.
  simpl. f_equal. induction ps as [|[k v] ps IH]; simpl; auto.
  unfold prop_in at 1. simpl. now rewrite IH.
Qed.

Lemma elems_equal_trans xs :
  Forall (fun a => forall b c,
            isEqual a b = true -> isEqual b c = true -> isEqual a c = true) xs ->
  forall ys zs,
    elems_equal xs ys = true -> elems_equal ys zs = true ->
    elems_equal xs zs = true.
Proof.
  induction 1 as [|x xs Hx _ IH]; intros [|y ys] [|z zs]; simpl;
    try discriminate; auto.
  intros H1 H2. apply andb_prop in H1. apply andb_prop in H2.
  destruct H1 as [H1 H1'], H2 as [H2 H2'].
  apply andb_true_intro. split; eauto.
Qed.

Lemma isEqual_trans a :
  forall b c, isEqual a b = true -> isEqual b c = true -> isEqual a c = true.
Proof.
  induction a as [| |x|x|x|xs IH|ps IH] using value_deep_ind;
    intros b c Hab Hbc;
    destruct b as [| |y|y|y|ys|qs]; try discriminate Hab;
    destruct c as [| |z|z|z|zs|rs]; try discriminate Hbc; auto.
  - simpl in *. apply Bool.eqb_prop in Hab. now subst.
  - simpl in *. apply Z.eqb_eq in Hab. now subst.
  - simpl in *. apply String.eqb_eq in Hab. now subst.
  - rewrite isEqual_arr in *. eapply elems_equal_trans; eassumption.
  - rewrite isEqual_obj in *.
    apply andb_prop in Hab. apply andb_prop in Hbc.
    destruct Hab as [Lab Fab], Hbc as [Lbc Fbc].
    apply Nat.eqb_eq in Lab. apply Nat.eqb_eq in Lbc.
    apply andb_true_intro. split; [apply Nat.eqb_eq; congruence|].
    rewrite forallb_forall in *. intros [k v] Hin.
    specialize (Fab _ Hin). unfold prop_in in Fab |- *. simpl in *.
    destruct (assoc_get k qs) as [w|] eqn:Eq; [|discriminate].
    pose proof (assoc_get_in _ _ _ Eq) as Hinq.
    specialize (Fbc _ Hinq). unfold prop_in in Fbc. simpl in Fbc.
    destruct (assoc_get k rs) as [x|]; [|discriminate].
    rewrite Forall_forall in IH. exact (IH _ Hin _ _ Fab Fbc).
Qed.

Lemma forall2_keys (R : value -> value -> Prop) (ps qs : props_t) :
  Forall2 (fun p q => fst p = fst q /\ R (snd p) (snd q)) ps qs ->
  keys ps = keys qs.
Proof.
  induction 1 as [|p q ps qs [Hk _] _ IH]; simpl; auto. now rewrite Hk, IH.
Qed.

Lemma forall2_in_left {A B} (R : A -> B -> Prop) xs ys x :
  Forall2 R xs ys -> In x xs -> exists y, In y ys /\ R x y.
Proof.
  induction 1 as [|a b xs ys Hab _ IH]; simpl; [tauto|].
  intros [<- | Hin].
  - exists b. auto.
  - destruct (IH Hin) as (y & Hy & HR). exists y. auto.
Qed.

(** [isEqual] accepts every pair of deeply equal values: in particular it
    does not look at the order of the properties. *)
Lemma isEqual_complete a : forall b, deep_equal a b -> isEqual a b = true.
Proof.
  induction a as [| |x|x|x|xs IH|ps IH] using value_deep_ind;
    intros b Hde; inversion Hde; subst; simpl; auto.
  - apply Bool.eqb_reflx.
  - apply Z.eqb_refl.
  - apply String.eqb_refl.
  - change (isEqual (VArr xs) (VArr ys) = true). rewrite isEqual_arr.
    match goal with H : Forall2 deep_equal xs ys |- _ => rename H into HF end.
    clear Hde. induction HF as [|x y xs ys Hxy _ IHF]; simpl; auto.
    inversion IH; subst. apply andb_true_intro. split; auto.
  - change (isEqual (VObj ps) (VObj qs) = true). rewrite isEqual_obj.
    match goal with
    | Hnd : NoDup (keys ps), Hp : Permutation qs ?l, HF : Forall2 _ ps ?l |- _ =>
        rename Hnd into Hnodup; rename Hp into Hperm; rename HF into Hall;
        rename l into qs'
    end.
    assert (Hndq : NoDup (keys qs)).
    { apply (Permutation_NoDup (l := keys qs')).
      - unfold keys. apply Permutation_map. now apply Permutation_sym.
      - now rewrite <- (forall2_keys _ _ _ Hall). }
    apply andb_true_intro. split.
    + apply Nat.eqb_eq. rewrite (Permutation_length Hperm).
      eapply Forall2_length. eassumption.
    + rewrite forallb_forall. intros [k v] Hin.
      destruct (forall2_in_left _ _ _ _ Hall Hin) as ([k' w] & Hinq & Hk & Hv).
      simpl in Hk, Hv. subst k'.
      unfold prop_in. simpl.
      rewrite (in_assoc_get k w qs Hndq).
      * rewrite Forall_forall in IH. apply (IH _ Hin). exact Hv.
      * eapply Permutation_in; [apply Permutation_sym|]; eassumption.
Qed.

Lemma deep_equal_refl v : wf_value v -> deep_equal v v.
Proof.
  induction v as [| |b|n|s|xs IH|ps IH] using value_deep_ind; intros Hwf.
  - constructor.
  - constructor.
  - constructor.
  - constructor.
  - constructor.
  - inversion Hwf as [| | | | |? Hall|]; subst. apply de_arr.
    clear Hwf. induction xs as [|x xs IHxs]; constructor;
      inversion IH; inversion Hall; subst; auto.
  - inversion Hwf as [| | | | | |? Hnd Hall]; subst.
    apply de_obj with (qs' := ps); auto.
    clear Hnd Hwf. induction ps as [|p ps IHps]; constructor;
      inversion IH; inversion Hall; subst; auto.
Qed.

(** Reordering the properties of a record gives a deeply equal record. *)
Lemma deep_equal_reorder ps qs :
  wf_value (VObj ps) -> Permutation ps qs -> deep_equal (VObj ps) (VObj qs).
Proof.
  intros Hwf Hperm.
  pose proof (deep_equal_refl _ Hwf) as Hrefl.
  inversion Hrefl as [| | | | | |? ? qs' Hnd Hp HF]; subst.
  apply de_obj with (qs' := qs'); auto.
  eapply Permutation_trans; [apply Permutation_sym|]; eassumption.
Qed.

(** ** Arrays of the registry *)

Lemma findIndex_none arr d : findIndex arr d = None <-> ~ In d arr.
Proof.
  induction arr as [|x arr IH]; simpl; [tauto|].
  destruct (x =? d)%nat eqn:E.
  - apply Nat.eqb_eq in E. split; [discriminate | tauto].
  - apply Nat.eqb_neq in E. destruct (findIndex arr d).
    + split; [discriminate|]. intros H. exfalso. apply H. right.
      destruct (in_dec Nat.eq_dec d arr) as [Hin|Hn]; auto.
      apply IH in Hn. discriminate.
    + split; auto. intros _ [H|H]; [contradiction|]. now apply IH in H.
Qed.

Lemma findIndex_some arr d i :
  findIndex arr d = Some i -> nth_error arr i = Some d /\ i < List.length arr.
Proof.
  revert i. induction arr as [|x arr IH]; intros i; simpl; [discriminate|].
  destruct (x =? d)%nat eqn:E.
  - apply Nat.eqb_eq in E. intros [= <-]. subst. split; simpl; auto. lia.
  - destruct (findIndex arr d) as [j|]; [|discriminate].
    intros [= <-]. destruct (IH j eq_refl). split; simpl; auto. lia.
Qed.

Lemma findIndex_app arr d d' i :
  findIndex arr d = Some i -> findIndex (arr ++ [d']) d = Some i.
Proof.
  revert i. induction arr as [|x arr IH]; intros i; simpl; [discriminate|].
  destruct (x =? d)%nat; auto.
  destruct (findIndex arr d) as [j|]; [|discriminate].
  intros [= <-]. now rewrite (IH j eq_refl).
Qed.

Lemma findIndex_app_new arr d :
  findIndex arr d = None -> findIndex (arr ++ [d]) d = Some (List.length arr).
Proof.
  induction arr as [|x arr IH]; simpl.
  - now rewrite Nat.eqb_refl.
  - destruct (x =? d)%nat; [discriminate|].
    destruct (findIndex arr d); [discriminate|].
    intros _. now rewrite IH.
Qed.

Lemma findIndex_app_none arr d d' :
  findIndex arr d = None -> d' <> d -> findIndex (arr ++ [d']) d = None.
Proof.
  intros H Hne. apply findIndex_none. apply findIndex_none in H.
  intros Hin. apply in_app_or in Hin. destruct Hin as [Hin|[Heq|[]]]; auto.
Qed.

Lemma nth_array_set_same {A} (hole : A) arr idx v :
  nth idx (array_set hole arr idx v) hole = v.
Proof.
  unfold array_set. destruct (idx <? List.length arr)%nat eqn:E.
  - apply Nat.ltb_lt in E.
    rewrite app_nth2; rewrite length_firstn, Nat.min_l by lia; [|lia].
    now rewrite Nat.sub_diag.
  - apply Nat.ltb_ge in E.
    rewrite app_nth2 by lia. rewrite app_nth2; rewrite repeat_length; [|lia].
    now rewrite Nat.sub_diag.
Qed.

Lemma nth_replace_other {A} (hole : A) v arr :
  forall idx j, idx < List.length arr -> j <> idx ->
  nth j (firstn idx arr ++ v :: skipn (S idx) arr) hole = nth j arr hole.
Proof.
  induction arr as [|x arr IH]; intros idx j Hlt Hne; simpl in Hlt; [lia|].
  destruct idx as [|idx]; destruct j as [|j]; simpl; auto; try lia.
  apply IH; lia.
Qed.

Lemma nth_array_set_other {A} (hole : A) arr idx v j :
  j <> idx -> nth j (array_set hole arr idx v) hole = nth j arr hole.
Proof.
  intros Hne. unfold array_set. destruct (idx <? List.length arr)%nat eqn:E.
  - apply Nat.ltb_lt in E. now apply nth_replace_other.
  - apply Nat.ltb_ge in E.
    destruct (Nat.lt_ge_cases j (List.length arr)) as [Hlt|Hge].
    + now rewrite app_nth1 by lia.
    + rewrite app_nth2 by lia. rewrite (nth_overflow arr) by lia.
      destruct (Nat.lt_ge_cases j idx) as [Hlt'|Hge'].
      * rewrite app_nth1 by (rewrite repeat_length; lia).
        apply nth_repeat.
      * rewrite app_nth2; rewrite repeat_length; [|lia].
        destruct (j - List.length arr - (idx - List.length arr)) as [|m] eqn:Ej;
          [lia|]. simpl. now destruct m.
Qed.

Lemma length_array_set {A} (hole : A) arr idx v :
  idx < List.length arr ->
  List.length (array_set hole arr idx v) = List.length arr.
Proof.
  intros Hlt. unfold array_set.
  apply Nat.ltb_lt in Hlt as E. rewrite E.
  rewrite length_app. cbn [List.length]. rewrite length_firstn, length_skipn. lia.
Qed.


(** ** render, path by path *)

(** The properties of [{data, ...merged}]. *)
Lemma spread_lookup data (pm : props_t) k :
  NoDup (keys pm) ->
  assoc_get k (assign_props pm [("data", data)]) =
  if k =? "data"
  then Some (match assoc_get "data" pm with Some v => v | None => data end)
  else assoc_get k pm.
Proof.
  intros Hnd. rewrite assoc_get_assign by assumption. cbn [assoc_get].
  rewrite (String.eqb_sym "data" k).
  destruct (k =? "data") eqn:E.
  - apply String.eqb_eq in E. subst k. now destruct (assoc_get "data" pm).
  - now destruct (assoc_get k pm).
Qed.

Section HOCFacts.

Context {realm : Realm} {World : Type}.
Variable updateConfig : plot -> value -> callback World unit.
Variable plot_render : plot -> callback World unit.

Local Notation "'Render'" := (render updateConfig plot_render).
Local Notation "'Update'" := (render_update updateConfig plot_render).

Implicit Types (s : state World) (d : dom) (data config : value)
  (f : option formatter) (p : plot).

Lemma state_eta s : mk (hoc s) (world s) (trace s) = s.
Proof. now destruct s. Qed.

(** First render for a target: the create function is called; only if it
    returns is the entry pushed. *)
Lemma render_create s d data config f :
  findIndex (domArr (hoc s)) d = None ->
  Render d data config f s =
  match getDom (hoc s) d data config f (world s) with
  | (Ok p, w) =>
      (Ok (Some p),
       mk (registered d data p (hoc s)) w
          (trace s ++ [CallGetDom d data config f]))
  | (Throw e, w) =>
      (Throw e, mk (hoc s) w (trace s ++ [CallGetDom d data config f]))
  end.
Proof.
  intros Hidx. unfold render, bind, this. simpl. rewrite Hidx.
  unfold call. destruct (getDom (hoc s) d data config f (world s)) as [[p|e] w];
    reflexivity.
Qed.

(** A later render with equal data does nothing. *)
Lemma render_unchanged s d data config f idx :
  findIndex (domArr (hoc s)) d = Some idx ->
  isEqual (nth idx (dataArr (hoc s)) VUndef) data = true ->
  Render d data config f s = (Ok (nth_error (chartPlotArr (hoc s)) idx), s).
Proof.
  intros Hidx Heq. unfold render, bind, this, read_dataArr, read_chartPlotArr.
  simpl. rewrite Hidx. unfold bind, this, ret. simpl. rewrite Heq. reflexivity.
Qed.

(** A later render with different data runs the update branch and returns
    the stored instance. *)
Lemma render_changed s d data config f idx :
  findIndex (domArr (hoc s)) d = Some idx ->
  isEqual (nth idx (dataArr (hoc s)) VUndef) data = false ->
  Render d data config f s =
  match Update idx data config f s with
  | (Ok _, s') => (Ok (nth_error (chartPlotArr (hoc s')) idx), s')
  | (Throw e, s') => (Throw e, s')
  end.
Proof.
  intros Hidx Heq. unfold render, bind, this, read_dataArr, read_chartPlotArr.
  simpl. rewrite Hidx. unfold bind, this, ret. simpl. rewrite Heq. simpl.
  destruct (Update idx data config f s) as [[u|e] s']; reflexivity.
Qed.

(** The update branch, stage by stage. *)
Lemma render_update_run s idx data config f p :
  nth_error (chartPlotArr (hoc s)) idx = Some p ->
  Update idx data config f s =
  let h' := stored idx data (hoc s) in
  let '(oc, w1, ev1) := origin_call (hoc s) data config f (world s) in
  let t1 := (trace s ++ ev1)%list in
  match oc with
  | Throw e => (Throw e, mk h' w1 t1)
  | Ok originConfig =>
      match formatMergeConfig originConfig (config_or_empty config) f with
      | Throw e => (Throw e, mk h' w1 t1)
      | Ok merged =>
          let arg := with_data data merged in
          let t2 := (t1 ++ [CallUpdateConfig p arg])%list in
          match updateConfig p arg w1 with
          | (Throw e, w2) => (Throw e, mk h' w2 t2)
          | (Ok _, w2) =>
              let t3 := (t2 ++ [CallRender p])%list in
              match plot_render p w2 with
              | (Throw e, w3) => (Throw e, mk h' w3 t3)
              | (Ok _, w3) =>
                  match stateManagerFunc (hoc s) with
                  | Some g =>
                      let (r, w4) := g (Some p) data config w3 in
                      (r, mk h' w4
                            (t3 ++ [CallStateManager (Some p) data config]))
                  | None => (Ok tt, mk h' w3 t3)
                  end
              end
          end
      end
  end.
Proof.
  intros Hp. unfold render_update, origin_call, bind, this, set_dataArr,
    update_this, read_chartPlotArr, call, lift, ret. simpl.
  destruct (getOriginConfig (hoc s)) as [g|] eqn:Eg; simpl.
  - destruct (g data config f (world s)) as [[oc|e] w1]; simpl;
      [|unfold mk, stored; now rewrite Eg].
    unfold bind, ret. simpl. rewrite Hp. simpl.
    destruct (formatMergeConfig oc (config_or_empty config) f) as [merged|e];
      simpl; [|unfold mk, stored; now rewrite Eg].
    destruct (updateConfig p (with_data data merged) w1) as [[u|e] w2];
      simpl; [|unfold mk, stored; now rewrite Eg].
    rewrite Hp. simpl.
    destruct (plot_render p w2) as [[u'|e] w3]; simpl;
      [|unfold mk, stored; now rewrite Eg].
    destruct (stateManagerFunc (hoc s)) as [g'|] eqn:Es; simpl;
      [|unfold mk, stored; now rewrite Eg, Es].
    rewrite Hp. simpl. destruct (g' (Some p) data config w3).
    unfold mk, stored. now rewrite Eg, Es.
  - unfold bind, ret. simpl. rewrite Hp. simpl. rewrite app_nil_r.
    destruct (formatMergeConfig (VObj []) (config_or_empty config) f)
      as [merged|e]; simpl; [|unfold mk, stored; now rewrite Eg].
    destruct (updateConfig p (with_data data merged) (world s)) as [[u|e] w2];
      simpl; [|unfold mk, stored; now rewrite Eg].
    rewrite Hp. simpl.
    destruct (plot_render p w2) as [[u'|e] w3]; simpl;
      [|unfold mk, stored; now rewrite Eg].
    destruct (stateManagerFunc (hoc s)) as [g'|] eqn:Es; simpl;
      [|unfold mk, stored; now rewrite Eg, Es].
    rewrite Hp. simpl. destruct (g' (Some p) data config w3).
    unfold mk, stored. now rewrite Eg, Es.
Qed.

Ltac stage w :=
  eexists _, w, _; rewrite <- ?app_assoc; split; [reflexivity|]; simpl;
  repeat split; auto; try discriminate; try congruence;
  repeat constructor; auto; discriminate.

(** What every run of the update branch has in common: the new data is
    stored whatever happens next, the create function is not called, the
    chart calls go to the stored instance, and the state manager is called
    at most once, with the stored instance and the arguments of the
    request. *)
Lemma render_update_summary s idx data config f p :
  nth_error (chartPlotArr (hoc s)) idx = Some p ->
  exists o w evs,
    Update idx data config f s
      = (o, mk (stored idx data (hoc s)) w (trace s ++ evs)) /\
    Forall (fun ev => is_getDom ev = false) evs /\
    Forall (fun ev => forall q, on_plot q ev = true -> q = p) evs /\
    (stateManagerFunc (hoc s) = None -> filter is_stateManager evs = []) /\
    (filter is_stateManager evs = [] \/
     filter is_stateManager evs = [CallStateManager (Some p) data config]) /\
    (o = Ok tt -> stateManagerFunc (hoc s) <> None ->
     filter is_stateManager evs = [CallStateManager (Some p) data config]).
Proof.
  intros Hp. rewrite (render_update_run s idx data config f p Hp).
  unfold origin_call. cbv zeta.
  assert (Hon : forall arg q,
            on_plot q (CallUpdateConfig p arg) = true -> q = p).
  { simpl. intros _ q Hq. apply Nat.eqb_eq in Hq. auto. }
  assert (Hon' : forall q, on_plot q (CallRender p) = true -> q = p).
  { simpl. intros q Hq. apply Nat.eqb_eq in Hq. auto. }
  destruct (getOriginConfig (hoc s)) as [g|].
  - destruct (g data config f (world s)) as [[oc|e] w1]; [|stage w1].
    destruct (formatMergeConfig oc (config_or_empty config) f) as [merged|e];
      [|stage w1].
    cbv zeta.
    destruct (updateConfig p (with_data data merged) w1) as [[u|e] w2];
      [|stage w2].
    destruct (plot_render p w2) as [[u'|e] w3]; [|stage w3].
    destruct (stateManagerFunc (hoc s)) as [g'|]; [|stage w3].
    destruct (g' (Some p) data config w3) as [r w4]. stage w4.
  - destruct (formatMergeConfig (VObj []) (config_or_empty config) f)
      as [merged|e]; [|stage (world s)].
    cbv zeta.
    destruct (updateConfig p (with_data data merged) (world s)) as [[u|e] w2];
      [|stage w2].
    destruct (plot_render p w2) as [[u'|e] w3]; [|stage w3].
    destruct (stateManagerFunc (hoc s)) as [g'|]; [|stage w3].
    destruct (g' (Some p) data config w3) as [r w4]. stage w4.
Qed.

Lemma on_update_path s d data config f idx :
  aligned (hoc s) ->
  findIndex (domArr (hoc s)) d = Some idx ->
  exists p, nth_error (chartPlotArr (hoc s)) idx = Some p.
Proof.
  intros [_ Hlen] Hidx. apply findIndex_some in Hidx. destruct Hidx as [_ Hlt].
  destruct (nth_error (chartPlotArr (hoc s)) idx) as [p|] eqn:E; eauto.
  apply nth_error_None in E. lia.
Qed.

Lemma count_app (P : event -> bool) (xs ys : list event) :
  count P (xs ++ ys) = count P xs + count P ys.
Proof. unfold count. now rewrite filter_app, length_app. Qed.

Lemma count_none (P : event -> bool) (evs : list event) :
  Forall (fun ev => P ev = false) evs -> count P evs = 0.
Proof.
  unfold count. induction 1 as [|ev evs Hev _ IH]; simpl; auto.
  now rewrite Hev.
Qed.

(** C9.  On a first render for a target the create function runs before
    anything is written to the registry: when it raises, the exception
    reaches the caller, the registry is what it was, the target is still
    unknown, and the next render for the target calls the create function
    again. *)
Theorem create_failure_leaves_registry s d data config f e w :
  findIndex (domArr (hoc s)) d = None ->
  getDom (hoc s) d data config f (world s) = (Throw e, w) ->
  let s' := snd (Render d data config f s) in
  fst (Render d data config f s) = Throw e /\
  hoc s' = hoc s /\
  trace s' = (trace s ++ [CallGetDom d data config f])%list /\
  findIndex (domArr (hoc s')) d = None /\
  forall data2 config2 f2,
    trace (snd (Render d data2 config2 f2 s'))
    = (trace s' ++ [CallGetDom d data2 config2 f2])%list.
Proof.
  intros Hidx Hthrow. rewrite (render_create s d data config f Hidx), Hthrow.
  simpl. repeat split; auto.
  intros data2 config2 f2.
  rewrite render_create by exact Hidx. simpl.
  destruct (getDom (hoc s) d data2 config2 f2 w) as [[p|e'] w']; reflexivity.
Qed.

(** C1.  Two renders for the same target with deeply equal data, the
    first of which left the target registered (as it does unless its create
    function raised): the create function is called at most once over the
    two calls; the second call changes nothing, neither the registry nor
    the world, and calls nothing; it returns the stored instance, the one
    the first call returned. *)
Theorem render_twice_same_data s d data1 config1 f1 data2 config2 f2 :
  aligned (hoc s) ->
  deep_equal data1 data2 ->
  let first := Render d data1 config1 f1 s in
  let s1 := snd first in
  In d (domArr (hoc s1)) ->
  let second := Render d data2 config2 f2 s1 in
  (exists evs, trace (snd second) = (trace s ++ evs)%list /\
               count is_getDom evs <= 1) /\
  snd second = s1 /\
  (exists idx p,
     findIndex (domArr (hoc s1)) d = Some idx /\
     nth_error (chartPlotArr (hoc s1)) idx = Some p /\
     fst second = Ok (Some p)) /\
  (forall x, fst first = Ok x -> fst second = Ok x).
Proof.
  intros Hal Hde. cbv zeta.
  pose proof (isEqual_complete _ _ Hde) as Heq.
  destruct (findIndex (domArr (hoc s)) d) as [idx|] eqn:Hidx.
  - destruct (on_update_path s d data1 config1 f1 idx Hal Hidx) as [p Hp].
    destruct (isEqual (nth idx (dataArr (hoc s)) VUndef) data1) eqn:E1.
    + rewrite (render_unchanged s d data1 config1 f1 idx Hidx E1). simpl. intros _.
      assert (E2 : isEqual (nth idx (dataArr (hoc s)) VUndef) data2 = true)
        by (eapply isEqual_trans; eassumption).
      rewrite (render_unchanged s d data2 config2 f2 idx Hidx E2). simpl.
      repeat split; auto.
      * exists []. rewrite app_nil_r. split; auto.
      * exists idx, p. rewrite Hp. auto.
    + rewrite (render_changed s d data1 config1 f1 idx Hidx E1).
      destruct (render_update_summary s idx data1 config1 f1 p Hp)
        as (o & w & evs & Hrun & Hng & _).
      rewrite Hrun.
      set (s1 := mk (stored idx data1 (hoc s)) w (trace s ++ evs)).
      assert (Hidx1 : findIndex (domArr (hoc s1)) d = Some idx) by exact Hidx.
      assert (E2 : isEqual (nth idx (dataArr (hoc s1)) VUndef) data2 = true).
      { simpl. now rewrite nth_array_set_same. }
      assert (Hsecond : Render d data2 config2 f2 s1 = (Ok (Some p), s1)).
      { rewrite (render_unchanged s1 d data2 config2 f2 idx Hidx1 E2). simpl.
        now rewrite Hp. }
      assert (Hs1 : snd (match o with
                         | Ok _ => (Ok (nth_error (chartPlotArr (hoc s1)) idx), s1)
                         | Throw e => (@Throw (option plot) e, s1)
                         end) = s1) by now destruct o.
      rewrite Hs1. intros _. rewrite Hsecond. simpl.
      repeat split; auto.
      * exists evs. split; auto. rewrite count_none; auto.
      * exists idx, p. auto.
      * destruct o; simpl; [|discriminate]. rewrite Hp. now intros x [= <-].
  - rewrite (render_create s d data1 config1 f1 Hidx).
    destruct (getDom (hoc s) d data1 config1 f1 (world s)) as [[p|e] w]; simpl.
    + set (s1 := mk (registered d data1 p (hoc s)) w
                    (trace s ++ [CallGetDom d data1 config1 f1])).
      destruct Hal as [Hld Hlp].
      assert (Hidx1 : findIndex (domArr (hoc s1)) d
                      = Some (List.length (domArr (hoc s))))
        by (simpl; now apply findIndex_app_new).
      assert (E2 : isEqual (nth (List.length (domArr (hoc s)))
                              (dataArr (hoc s1)) VUndef) data2 = true).
      { simpl. rewrite app_nth2 by lia. rewrite Hld, Nat.sub_diag. exact Heq. }
      assert (Hp : nth_error (chartPlotArr (hoc s1))
                     (List.length (domArr (hoc s))) = Some p).
      { simpl. rewrite nth_error_app2 by lia. now rewrite Hlp, Nat.sub_diag. }
      intros _. rewrite (render_unchanged s1 d data2 config2 f2 _ Hidx1 E2). simpl.
      repeat split; auto.
      * eexists. split; [reflexivity|]. unfold count. simpl. lia.
      * eexists _, p. split; [exact Hidx1|]. split; [exact Hp|].
        simpl in Hp. now rewrite Hp.
      * simpl in Hp. rewrite Hp. auto.
    + intros Hin. apply findIndex_none in Hidx. contradiction.
Qed.

(** The registry and the calls of one render, for a registry whose arrays
    go together. *)
Lemma render_effect s d data config f :
  aligned (hoc s) ->
  exists o w evs,
    Render d data config f s = (o, mk (hoc (snd (Render d data config f s)))
                                      w (trace s ++ evs)) /\
    match findIndex (domArr (hoc s)) d with
    | None =>
        evs = [CallGetDom d data config f] /\
        match o with
        | Ok r => exists p, r = Some p /\
                  hoc (snd (Render d data config f s))
                  = registered d data p (hoc s)
        | Throw _ => hoc (snd (Render d data config f s)) = hoc s
        end
    | Some idx =>
        exists p, nth_error (chartPlotArr (hoc s)) idx = Some p /\
        (forall r, o = Ok r -> r = Some p) /\
        if isEqual (nth idx (dataArr (hoc s)) VUndef) data
        then evs = [] /\ o = Ok (Some p) /\ w = world s /\
             hoc (snd (Render d data config f s)) = hoc s
        else hoc (snd (Render d data config f s)) = stored idx data (hoc s) /\
             Forall (fun ev => is_getDom ev = false) evs /\
             Forall (fun ev => forall q, on_plot q ev = true -> q = p) evs /\
             (stateManagerFunc (hoc s) = None ->
              filter is_stateManager evs = []) /\
             (filter is_stateManager evs = [] \/
              filter is_stateManager evs
              = [CallStateManager (Some p) data config]) /\
             (forall r, o = Ok r -> stateManagerFunc (hoc s) <> None ->
              filter is_stateManager evs
              = [CallStateManager (Some p) data config])
    end.
Proof.
  intros Hal.
  destruct (findIndex (domArr (hoc s)) d) as [idx|] eqn:Hidx.
  - destruct (on_update_path s d data config f idx Hal Hidx) as [p Hp].
    destruct (isEqual (nth idx (dataArr (hoc s)) VUndef) data) eqn:E.
    + rewrite (render_unchanged s d data config f idx Hidx E). simpl.
      exists (Ok (Some p)), (world s), []. rewrite app_nil_r, state_eta, Hp.
      split; auto. exists p. repeat split; auto. now intros r [= <-].
    + rewrite (render_changed s d data config f idx Hidx E).
      destruct (render_update_summary s idx data config f p Hp)
        as (o & w & evs & Hrun & H1 & H2 & H3 & H4 & H5).
      rewrite Hrun. destruct o as [[]|e]; simpl.
      * exists (Ok (Some p)), w, evs. rewrite Hp. split; auto.
        exists p. repeat split; auto. now intros r [= <-].
      * exists (Throw e), w, evs. split; auto.
        exists p. repeat split; auto; discriminate.
  - rewrite (render_create s d data config f Hidx).
    destruct (getDom (hoc s) d data config f (world s)) as [[p|e] w]; simpl.
    + exists (Ok (Some p)), w. eexists. split; [reflexivity|]. eauto.
    + exists (Throw e), w. eexists. split; [reflexivity|]. eauto.
Qed.

Lemma aligned_registered d data p (h : SingleChartHOC World) :
  aligned h -> aligned (registered d data p h).
Proof.
  intros [H1 H2]. unfold aligned. simpl. rewrite !length_app. simpl. lia.
Qed.

Lemma aligned_stored idx data (h : SingleChartHOC World) :
  aligned h -> idx < List.length (domArr h) -> aligned (stored idx data h).
Proof.
  intros [H1 H2] Hlt. unfold aligned. simpl.
  rewrite length_array_set by lia. auto.
Qed.

(** One render: what becomes of the registry. *)
Lemma render_registry_step s d data config f :
  registry_ok (hoc s) ->
  let h' := hoc (snd (Render d data config f s)) in
  registry_ok h' /\
  match findIndex (domArr (hoc s)) d with
  | Some idx =>
      domArr h' = domArr (hoc s) /\
      chartPlotArr h' = chartPlotArr (hoc s) /\
      List.length (dataArr h') = List.length (dataArr (hoc s)) /\
      forall j, j <> idx ->
        nth j (dataArr h') VUndef = nth j (dataArr (hoc s)) VUndef
  | None =>
      h' = hoc s \/ exists p, h' = registered d data p (hoc s)
  end.
Proof.
  intros [Hnd Hal]. cbv zeta.
  destruct (render_effect s d data config f Hal) as (o & w & evs & _ & H).
  destruct (findIndex (domArr (hoc s)) d) as [idx|] eqn:Hidx.
  - destruct H as (p & Hp & _ & H).
    pose proof (findIndex_some _ _ _ Hidx) as [_ Hlt].
    destruct (isEqual (nth idx (dataArr (hoc s)) VUndef) data).
    + destruct H as (_ & _ & _ & ->). repeat split; auto; apply Hal.
    + destruct H as (-> & _). split; [split|]; simpl; auto.
      * now apply aligned_stored.
      * repeat split; auto.
        -- apply length_array_set. destruct Hal. lia.
        -- intros j Hj. now apply nth_array_set_other.
  - destruct H as [_ H]. destruct o as [r|e].
    + destruct H as (p & _ & ->). split; [split|eauto]; simpl.
      * apply NoDup_app; auto.
        -- repeat constructor. simpl. tauto.
        -- intros x Hx [<- | []]. apply findIndex_none in Hidx. contradiction.
      * now apply aligned_registered.
    + rewrite H. split; [split|]; auto.
Qed.

Lemma run_app (rs1 rs2 : list request) s :
  run updateConfig plot_render (rs1 ++ rs2) s
  = run updateConfig plot_render rs2 (run updateConfig plot_render rs1 s).
Proof. revert s. induction rs1 as [|r rs1 IH]; intros s; simpl; auto. Qed.

Lemma run_registry (rs : list request) s :
  registry_ok (hoc s) ->
  registry_ok (hoc (run updateConfig plot_render rs s)) /\
  exists doms plots,
    domArr (hoc (run updateConfig plot_render rs s))
      = (domArr (hoc s) ++ doms)%list /\
    chartPlotArr (hoc (run updateConfig plot_render rs s))
      = (chartPlotArr (hoc s) ++ plots)%list.
Proof.
  revert s. induction rs as [|r rs IH]; intros s Hok; simpl.
  - split; auto. exists [], []. now rewrite !app_nil_r.
  - destruct (render_registry_step s (req_dom r) (req_data r) (req_config r)
                (req_formatConfig r) Hok) as [Hok' Hstep].
    fold (render_request updateConfig plot_render r s) in Hok', Hstep.
    destruct (IH _ Hok') as (Hfin & doms & plots & Hd & Hp).
    split; auto.
    destruct (findIndex (domArr (hoc s)) (req_dom r)).
    + destruct Hstep as (Ed & Ep & _). rewrite Ed in Hd. rewrite Ep in Hp. eauto.
    + destruct Hstep as [E | [p E]].
      * rewrite E in Hd, Hp. eauto.
      * rewrite E in Hd, Hp. simpl in Hd, Hp.
        rewrite <- app_assoc in Hd, Hp. eauto.
Qed.

(** C5.  The registry holds at most one entry for a mount target, at every
    point of every run of render calls on a wrapper: it does when the
    wrapper is constructed; a render keeps it so, adding an entry only when
    the lookup by identity finds none and otherwise leaving the targets and
    instances alone and writing at most the data of the entry found; and no
    run removes an entry. *)
Theorem one_entry_per_target :
  (forall getDom0 cfg w rs,
     registry_ok (hoc (run updateConfig plot_render rs
                         (initial getDom0 cfg w)))) /\
  (forall s d data config f,
     registry_ok (hoc s) ->
     let h' := hoc (snd (Render d data config f s)) in
     registry_ok h' /\
     match findIndex (domArr (hoc s)) d with
     | Some idx =>
         domArr h' = domArr (hoc s) /\
         chartPlotArr h' = chartPlotArr (hoc s) /\
         List.length (dataArr h') = List.length (dataArr (hoc s)) /\
         forall j, j <> idx ->
           nth j (dataArr h') VUndef = nth j (dataArr (hoc s)) VUndef
     | None =>
         h' = hoc s \/ exists p, h' = registered d data p (hoc s)
     end) /\
  (forall s rs,
     registry_ok (hoc s) ->
     exists doms plots,
       domArr (hoc (run updateConfig plot_render rs s))
         = (domArr (hoc s) ++ doms)%list /\
       chartPlotArr (hoc (run updateConfig plot_render rs s))
         = (chartPlotArr (hoc s) ++ plots)%list).
Proof.
  split; [|split].
  - intros getDom0 cfg w rs. apply run_registry.
    split; [constructor | split; reflexivity].
  - intros s d data config f Hok. now apply render_registry_step.
  - intros s rs Hok. now apply run_registry.
Qed.

(** C6.  With a state manager, one render calls it: not at all on a first
    render for the target, nor when the data is unchanged; at most once
    when the data changed, and exactly once when that render returns.  The
    call is made with the stored instance and the data and configuration
    of this request. *)
Theorem stateManager_calls s d data config f g :
  aligned (hoc s) ->
  stateManagerFunc (hoc s) = Some g ->
  let res := Render d data config f s in
  exists evs,
    trace (snd res) = (trace s ++ evs)%list /\
    match findIndex (domArr (hoc s)) d with
    | None => filter is_stateManager evs = []
    | Some idx =>
        if isEqual (nth idx (dataArr (hoc s)) VUndef) data
        then filter is_stateManager evs = []
        else
          exists p, nth_error (chartPlotArr (hoc s)) idx = Some p /\
          (filter is_stateManager evs = [] \/
           filter is_stateManager evs
           = [CallStateManager (Some p) data config]) /\
          (forall r, fst res = Ok r ->
             filter is_stateManager evs
             = [CallStateManager (Some p) data config])
    end.
Proof.
  intros Hal Hg. cbv zeta.
  destruct (render_effect s d data config f Hal) as (o & w & evs & Hrun & H).
  exists evs. split; [now rewrite Hrun|].
  destruct (findIndex (domArr (hoc s)) d) as [idx|].
  - destruct H as (p & Hp & _ & H).
    destruct (isEqual (nth idx (dataArr (hoc s)) VUndef) data).
    + destruct H as (-> & _). reflexivity.
    + destruct H as (_ & _ & _ & _ & Hmost & Hone).
      exists p. repeat split; auto.
      intros r Hr. rewrite Hrun in Hr. simpl in Hr.
      apply (Hone r Hr). congruence.
  - destruct H as [-> _]. reflexivity.
Qed.

Lemma getDom_for_is_getDom d (ev : event) :
  is_getDom ev = false -> is_getDom_for d ev = false.
Proof. destruct ev; simpl; auto; discriminate. Qed.

Lemma count_on_plot_other p q (evs : list event) :
  p <> q ->
  Forall (fun ev => forall x, on_plot x ev = true -> x = p) evs ->
  count (on_plot q) evs = 0.
Proof.
  intros Hne Hall. apply count_none.
  eapply Forall_impl; [|exact Hall]. intros ev Hev. simpl in Hev.
  destruct (on_plot q ev) eqn:E; auto. apply Hev in E. congruence.
Qed.

(** C7.  A render for target A leaves the entry of another registered
    target B as it is: same place, same stored data, same instance.  It
    does not call the create function for B; the chart calls it makes go to
    the instance stored for A, so none goes to the instance of B, the two
    being different instances. *)
Theorem other_target_untouched s dA dB data config f iB pB :
  aligned (hoc s) ->
  dA <> dB ->
  findIndex (domArr (hoc s)) dB = Some iB ->
  nth_error (chartPlotArr (hoc s)) iB = Some pB ->
  let s' := snd (Render dA data config f s) in
  findIndex (domArr (hoc s')) dB = Some iB /\
  nth iB (dataArr (hoc s')) VUndef = nth iB (dataArr (hoc s)) VUndef /\
  nth_error (chartPlotArr (hoc s')) iB = Some pB /\
  exists evs,
    trace s' = (trace s ++ evs)%list /\
    count (is_getDom_for dB) evs = 0 /\
    (forall iA pA,
       findIndex (domArr (hoc s)) dA = Some iA ->
       nth_error (chartPlotArr (hoc s)) iA = Some pA ->
       count is_getDom evs = 0 /\
       Forall (fun ev => forall q, on_plot q ev = true -> q = pA) evs /\
       (pA <> pB -> count (on_plot pB) evs = 0)) /\
    (findIndex (domArr (hoc s)) dA = None -> count (on_plot pB) evs = 0).
Proof.
  intros Hal Hne HiB HpB. cbv zeta.
  destruct (render_effect s dA data config f Hal) as (o & w & evs & Hrun & H).
  pose proof (findIndex_some _ _ _ HiB) as [HdB HltB].
  destruct (findIndex (domArr (hoc s)) dA) as [iA|] eqn:HiA.
  - destruct H as (pA & HpA & _ & H).
    pose proof (findIndex_some _ _ _ HiA) as [HdA _].
    assert (Hii : iB <> iA) by (intros ->; congruence).
    assert (Hevs : Forall (fun ev => is_getDom ev = false) evs /\
                   Forall (fun ev => forall q, on_plot q ev = true -> q = pA) evs).
    { destruct (isEqual (nth iA (dataArr (hoc s)) VUndef) data).
      - destruct H as (-> & _). split; constructor.
      - destruct H as (_ & H1 & H2 & _). auto. }
    destruct Hevs as [Hng Hon].
    assert (Hh : hoc (snd (Render dA data config f s)) = hoc s \/
                 hoc (snd (Render dA data config f s)) = stored iA data (hoc s)).
    { destruct (isEqual (nth iA (dataArr (hoc s)) VUndef) data).
      - left. apply H.
      - right. apply H. }
    assert (Hentry :
      findIndex (domArr (hoc (snd (Render dA data config f s)))) dB = Some iB /\
      nth iB (dataArr (hoc (snd (Render dA data config f s)))) VUndef
        = nth iB (dataArr (hoc s)) VUndef /\
      nth_error (chartPlotArr (hoc (snd (Render dA data config f s)))) iB
        = Some pB).
    { destruct Hh as [-> | ->]; simpl; auto.
      repeat split; auto. now apply nth_array_set_other. }
    destruct Hentry as (E1 & E2 & E3). repeat split; auto.
    exists evs. split; [now rewrite Hrun|]. split; [|split].
    + apply count_none. eapply Forall_impl; [|exact Hng].
      intros ev. apply getDom_for_is_getDom.
    + intros iA' pA' [= <-] HpA'. assert (pA' = pA) by congruence. subst pA'.
      split; [now apply count_none|]. split; auto.
      intros Hpp. now apply count_on_plot_other with (p := pA).
    + discriminate.
  - destruct H as [-> H]. destruct Hal as [Hld Hlp].
    assert (Hentry :
      findIndex (domArr (hoc (snd (Render dA data config f s)))) dB = Some iB /\
      nth iB (dataArr (hoc (snd (Render dA data config f s)))) VUndef
        = nth iB (dataArr (hoc s)) VUndef /\
      nth_error (chartPlotArr (hoc (snd (Render dA data config f s)))) iB
        = Some pB).
    { destruct o as [r|e].
      - destruct H as (p & _ & ->). simpl. repeat split.
        + now apply findIndex_app.
        + apply app_nth1. lia.
        + rewrite nth_error_app1 by lia. exact HpB.
      - rewrite H. auto. }
    destruct Hentry as (E1 & E2 & E3). repeat split; auto.
    eexists. split; [now rewrite Hrun|]. unfold count. simpl.
    apply Nat.eqb_neq in Hne. rewrite Hne. simpl.
    repeat split; auto; discriminate.
Qed.




(** C8.  On the update branch the new data is stored before the chart is
    touched.  So when [updateConfig] raises, or the instance's render
    after it, the exception reaches the caller and the registry already
    holds the new data: nothing is rolled back, and a later render with
    deeply equal data does nothing, although the chart was not updated. *)
Theorem update_failure_keeps_new_data
    s d data config f idx p originConfig w1 ev1 merged :
  findIndex (domArr (hoc s)) d = Some idx ->
  nth_error (chartPlotArr (hoc s)) idx = Some p ->
  isEqual (nth idx (dataArr (hoc s)) VUndef) data = false ->
  origin_call (hoc s) data config f (world s) = (Ok originConfig, w1, ev1) ->
  formatMergeConfig originConfig (config_or_empty config) f = Ok merged ->
  let arg := with_data data merged in
  (forall e w2,
     updateConfig p arg w1 = (Throw e, w2) ->
     Render d data config f s
     = (Throw e,
        mk (stored idx data (hoc s)) w2
           (trace s ++ ev1 ++ [CallUpdateConfig p arg]))) /\
  (forall e w2 w3,
     updateConfig p arg w1 = (Ok tt, w2) ->
     plot_render p w2 = (Throw e, w3) ->
     Render d data config f s
     = (Throw e,
        mk (stored idx data (hoc s)) w3
           (trace s ++ ev1 ++ [CallUpdateConfig p arg; CallRender p]))) /\
  nth idx (dataArr (stored idx data (hoc s))) VUndef = data /\
  (forall w t data2 config2 f2,
     deep_equal data data2 ->
     Render d data2 config2 f2 (mk (stored idx data (hoc s)) w t)
     = (Ok (Some p), mk (stored idx data (hoc s)) w t)).
Proof.
  intros Hidx Hp Hneq Ho Hm. cbv zeta.
  split; [|split; [|split]].
  - intros e w2 Hu.
    rewrite (render_changed s d data config f idx Hidx Hneq).
    rewrite (render_update_run s idx data config f p Hp).
    rewrite Ho. cbv zeta. rewrite Hm, Hu. now rewrite <- app_assoc.
  - intros e w2 w3 Hu Hr.
    rewrite (render_changed s d data config f idx Hidx Hneq).
    rewrite (render_update_run s idx data config f p Hp).
    rewrite Ho. cbv zeta. rewrite Hm, Hu, Hr. now rewrite <- !app_assoc.
  - simpl. apply nth_array_set_same.
  - intros w t data2 config2 f2 Hde.
    rewrite (render_unchanged (mk (stored idx data (hoc s)) w t)
               d data2 config2 f2 idx).
    + simpl. now rewrite Hp.
    + exact Hidx.
    + simpl. rewrite nth_array_set_same. now apply isEqual_complete.
Qed.

End HOCFacts.

(** ** The theorems at work in a small world *)

Section Examples.

Local Existing Instance Builtins.realm.

Lemma sales_deep_equal :
  deep_equal Example.sales Example.sales_reordered.
Proof.
  apply de_obj with (qs' := [("x", VNum 1); ("y", VNum 2)]).
  - repeat constructor; simpl; intuition discriminate.
  - apply perm_swap.
  - repeat constructor.
Defined.

Lemma render_twice_same_data_witness :
  snd (render Example.update Example.repaint 1 Example.sales_reordered
         VUndef None Example.started)
  = Example.started.
Proof.
  pose proof (render_twice_same_data Example.update Example.repaint
                (initial Example.create None 0) 1
                Example.sales VUndef None
                Example.sales_reordered VUndef None) as H.
  cbv zeta in H. apply H.
  - split; reflexivity.
  - exact sales_deep_equal.
  - simpl. left. reflexivity.
Defined.


Lemma one_entry_per_target_witness :
  registry_ok (hoc Example.two_targets) /\
  registry_ok
    (hoc (snd (render Example.update Example.repaint 1 Example.sales_changed
                 VUndef None Example.two_targets))).
Proof.
  destruct (one_entry_per_target Example.update Example.repaint)
    as (Hrun & Hstep & _).
  assert (Hok : registry_ok (hoc Example.two_targets)).
  { exact (Hrun Example.create None 0
             [ {| req_dom := 1; req_data := Example.sales;
                  req_config := VUndef; req_formatConfig := None |};
               {| req_dom := 2; req_data := Example.sales;
                  req_config := VUndef; req_formatConfig := None |} ]). }
  split; [exact Hok|].
  exact (proj1 (Hstep Example.two_targets 1 Example.sales_changed VUndef None
                  Hok)).
Defined.

Lemma stateManager_calls_witness :
  exists evs,
    trace (snd (render Example.update Example.repaint 1 Example.sales_changed
                  VUndef None Example.managed))
      = (trace Example.managed ++ evs)%list /\
    filter is_stateManager evs
      = [CallStateManager (Some 101) Example.sales_changed VUndef].
Proof.
  destruct (stateManager_calls Example.update Example.repaint
              Example.managed 1 Example.sales_changed VUndef None
              Example.manage) as (evs & Ht & H).
  - split; reflexivity.
  - reflexivity.
  - exists evs. split; [exact Ht|].
    change (findIndex (domArr (hoc Example.managed)) 1) with (Some 0) in H.
    change (isEqual (nth 0 (dataArr (hoc Example.managed)) VUndef)
              Example.sales_changed) with false in H.
    destruct H as (p & Hp & _ & Hone).
    vm_compute in Hp. injection Hp as <-.
    apply (Hone (Some 101)). reflexivity.
Defined.

Lemma other_target_untouched_witness :
  nth 1 (dataArr (hoc (snd (render Example.update Example.repaint 1
                              Example.sales_changed VUndef None
                              Example.two_targets)))) VUndef
  = Example.sales /\
  exists evs,
    trace (snd (render Example.update Example.repaint 1
                  Example.sales_changed VUndef None Example.two_targets))
      = (trace Example.two_targets ++ evs)%list /\
    count (is_getDom_for 2) evs = 0 /\
    count (on_plot 102) evs = 0.
Proof.
  destruct (other_target_untouched Example.update Example.repaint
              Example.two_targets 1 2 Example.sales_changed VUndef None 1 102)
    as (_ & Hdata & _ & evs & Ht & Hcreate & Hcalls & _).
  - split; reflexivity.
  - discriminate.
  - reflexivity.
  - reflexivity.
  - split; [exact Hdata|]. exists evs. split; [exact Ht|].
    split; [exact Hcreate|].
    destruct (Hcalls 0 101) as (_ & _ & Hnone);
      [reflexivity | reflexivity |].
    apply Hnone. discriminate.
Defined.

Lemma update_failure_keeps_new_data_witness :
  render Example.update_fails Example.repaint 1 Example.sales_changed
    VUndef None Example.fragile
  = (Throw (Thrown (VStr "bad config")),
     mk (stored 0 Example.sales_changed (hoc Example.fragile)) 0
        (trace Example.fragile ++ [] ++
         [CallUpdateConfig 101
            (with_data Example.sales_changed (VObj []))])).
Proof.
  destruct (update_failure_keeps_new_data Example.update_fails Example.repaint
              Example.fragile 1 Example.sales_changed VUndef None 0 101
              (VObj []) 0 [] (VObj [])) as (Hfail & _).
  - reflexivity.
  - reflexivity.
  - reflexivity.
  - reflexivity.
  - reflexivity.
  - apply Hfail. reflexivity.
Defined.

Lemma create_failure_leaves_registry_witness :
  hoc (snd (render Example.update Example.repaint 1 Example.sales VUndef None
              (initial Example.create_fails None 0)))
  = hoc (initial Example.create_fails None 0).
Proof.
  destruct (create_failure_leaves_registry Example.update Example.repaint
              (initial Example.create_fails None 0) 1 Example.sales VUndef
              None (Thrown (VStr "no container")) 0) as (_ & Hh & _).
  - reflexivity.
  - reflexivity.
  - exact Hh.
Defined.

End Examples.

(** ** mergeConfig on the heap *)

Module HeapFacts.

Section HeapProgram.

Context {realm : Realm}.

(** The tree model under names that the heap model does not take. *)
Local Abbreviation tree_get := get.
Local Abbreviation tree_object_assign := object_assign.
Local Abbreviation tree_step := mergeConfig_step.
Local Abbreviation tree_mergeConfig := mergeConfig.

Import Heap.
Local Open Scope list_scope.

Lemma length_write_cell a c (h : heap) :
  a < List.length h -> List.length (write_cell a c h) = List.length h.
Proof.
  intros Hlt. unfold write_cell. rewrite length_app. cbn [List.length].
  rewrite length_firstn, length_skipn. lia.
Qed.


Lemma nth_error_write_cell_other c (h : heap) :
  forall a b, b <> a -> a < List.length h ->
  nth_error (write_cell a c h) b = nth_error h b.
Proof.
  unfold write_cell. induction h as [|x h IH]; intros a b Hne Hlt;
    simpl in Hlt; [lia|].
  destruct a as [|a]; destruct b as [|b]; simpl; auto; try lia.
  apply IH; lia.
Qed.






Lemma preserved_but_fresh a h h' :
  List.length h <= a -> preserved_but a h h' -> preserved h h'.
Proof. intros Ha [L P]. split; auto. intros b Hb. apply P; lia. Qed.


Lemma preserved_but_write a c h :
  a < List.length h -> preserved_but a h (write_cell a c h).
Proof.
  intros Hlt. split.
  - rewrite length_write_cell; auto.
  - intros b Hb _. now apply nth_error_write_cell_other.
Qed.










(** *** The heap model against the tree model *)





























End HeapProgram.

End HeapFacts.

Section HeapExamples.

Local Existing Instance Builtins.realm.


End HeapExamples.
(** ** The wrapper over runs of render calls *)

Lemma mem_in d arr : mem d arr = true <-> In d arr.
Proof.
  unfold mem. rewrite existsb_exists. split.
  - intros (x & Hin & E). apply Nat.eqb_eq in E. now subst.
  - intros Hin. exists d. split; auto. apply Nat.eqb_refl.
Qed.

Lemma mem_findIndex d arr :
  mem d arr = match findIndex arr d with Some _ => true | None => false end.
Proof.
  destruct (findIndex arr d) as [i|] eqn:E.
  - apply mem_in. apply findIndex_some in E. destruct E as [E _].
    eapply nth_error_In. eassumption.
  - apply findIndex_none in E. destruct (mem d arr) eqn:M; auto.
    apply mem_in in M. contradiction.
Qed.

Lemma mem_app d arr d' :
  mem d (arr ++ [d'])%list = mem d arr || (d =? d')%nat.
Proof. unfold mem. rewrite existsb_app. simpl. now rewrite orb_false_r. Qed.

Section HOCRuns.

Context {realm : Realm} {World : Type}.
Variable updateConfig : plot -> value -> callback World unit.
Variable plot_render : plot -> callback World unit.

Local Notation "'Render'" := (render updateConfig plot_render).
Local Notation "'Run'" := (run updateConfig plot_render).

Implicit Types (s : state World) (d : dom) (data config : value)
  (f : option formatter) (p : plot).

Lemma same_functions_refl (h : SingleChartHOC World) : same_functions h h.
Proof. repeat split. Qed.

Lemma same_functions_trans (h1 h2 h3 : SingleChartHOC World) :
  same_functions h1 h2 -> same_functions h2 h3 -> same_functions h1 h3.
Proof.
  unfold same_functions. intros (A1 & A2 & A3) (B1 & B2 & B3).
  repeat split; congruence.
Qed.

(** One render, as far as the registry goes: it either leaves it, or
    stores the data of an entry it found, or pushes an entry for a target
    it did not find. *)
Lemma render_hoc_cases s d data config f :
  aligned (hoc s) ->
  let h' := hoc (snd (Render d data config f s)) in
  match findIndex (domArr (hoc s)) d with
  | Some idx => h' = hoc s \/ h' = stored idx data (hoc s)
  | None =>
      match getDom (hoc s) d data config f (world s) with
      | (Ok p, _) => h' = registered d data p (hoc s)
      | (Throw _, _) => h' = hoc s
      end
  end.
Proof.
  intros Hal. cbv zeta.
  destruct (findIndex (domArr (hoc s)) d) as [idx|] eqn:Hidx.
  - destruct (render_effect updateConfig plot_render s d data config f Hal)
      as (o & w & evs & _ & H).
    rewrite Hidx in H. destruct H as (p & _ & _ & H).
    destruct (isEqual (nth idx (dataArr (hoc s)) VUndef) data).
    + left. apply H.
    + right. apply H.
  - rewrite (render_create updateConfig plot_render s d data config f Hidx).
    destruct (getDom (hoc s) d data config f (world s)) as [[p|e] w];
      reflexivity.
Qed.

Lemma render_same_functions s d data config f :
  aligned (hoc s) ->
  same_functions (hoc s) (hoc (snd (Render d data config f s))).
Proof.
  intros Hal. pose proof (render_hoc_cases s d data config f Hal) as H.
  cbv zeta in H.
  destruct (findIndex (domArr (hoc s)) d) as [idx|].
  - destruct H as [-> | ->]; repeat split.
  - destruct (getDom (hoc s) d data config f (world s)) as [[p|e] w];
      rewrite H; repeat split.
Qed.

Lemma render_aligned s d data config f :
  aligned (hoc s) -> aligned (hoc (snd (Render d data config f s))).
Proof.
  intros Hal. pose proof (render_hoc_cases s d data config f Hal) as H.
  cbv zeta in H.
  destruct (findIndex (domArr (hoc s)) d) as [idx|] eqn:Hidx.
  - destruct H as [-> | ->]; auto. apply aligned_stored; auto.
    now apply findIndex_some in Hidx.
  - destruct (getDom (hoc s) d data config f (world s)) as [[p|e] w];
      rewrite H; auto. now apply aligned_registered.
Qed.

Lemma run_aligned rs : forall s, aligned (hoc s) -> aligned (hoc (Run rs s)).
Proof.
  induction rs as [|r rs IH]; intros s Hal; simpl; auto.
  apply IH. now apply render_aligned.
Qed.

Lemma run_same_functions rs :
  forall s, aligned (hoc s) -> same_functions (hoc s) (hoc (Run rs s)).
Proof.
  induction rs as [|r rs IH]; intros s Hal; simpl.
  - apply same_functions_refl.
  - eapply same_functions_trans.
    + apply (render_same_functions s (req_dom r) (req_data r) (req_config r)
               (req_formatConfig r) Hal).
    + apply IH. now apply render_aligned.
Qed.

(** X1.  A first render for a target whose create function returns
    instance [p]: [render] returns [p], the only call made is that one,
    with the arguments of the request, and the target is now registered,
    under the next free index, with the data of the request and [p]; the
    entries already there keep their index. *)
Theorem first_render_registers s d data config f p w :
  aligned (hoc s) ->
  findIndex (domArr (hoc s)) d = None ->
  getDom (hoc s) d data config f (world s) = (Ok p, w) ->
  let res := Render d data config f s in
  let h' := hoc (snd res) in
  let idx := List.length (domArr (hoc s)) in
  fst res = Ok (Some p) /\
  trace (snd res) = (trace s ++ [CallGetDom d data config f])%list /\
  world (snd res) = w /\
  aligned h' /\
  findIndex (domArr h') d = Some idx /\
  nth idx (dataArr h') VUndef = data /\
  nth_error (chartPlotArr h') idx = Some p /\
  forall d' i, findIndex (domArr (hoc s)) d' = Some i ->
    findIndex (domArr h') d' = Some i /\
    nth i (dataArr h') VUndef = nth i (dataArr (hoc s)) VUndef /\
    nth_error (chartPlotArr h') i = nth_error (chartPlotArr (hoc s)) i.
Proof.
  intros Hal Hidx Hcreate. cbv zeta.
  rewrite (render_create updateConfig plot_render s d data config f Hidx).
  rewrite Hcreate. cbn [fst snd hoc world trace mk].
  split; [reflexivity|]. split; [reflexivity|]. split; [reflexivity|].
  split; [now apply aligned_registered|].
  destruct Hal as [Hld Hlp]. cbn [registered domArr dataArr chartPlotArr].
  split; [now apply findIndex_app_new|].
  split; [rewrite app_nth2 by lia; now rewrite Hld, Nat.sub_diag|].
  split; [rewrite nth_error_app2 by lia; now rewrite Hlp, Nat.sub_diag|].
  intros d' i Hi. pose proof (findIndex_some _ _ _ Hi) as [_ Hlt].
  split; [now apply findIndex_app|].
  split; [apply app_nth1; lia | apply nth_error_app1; lia].
Qed.

Lemma render_keeps_entry s d idx p d' data config f :
  aligned (hoc s) ->
  findIndex (domArr (hoc s)) d = Some idx ->
  nth_error (chartPlotArr (hoc s)) idx = Some p ->
  findIndex (domArr (hoc (snd (Render d' data config f s)))) d = Some idx /\
  nth_error (chartPlotArr (hoc (snd (Render d' data config f s)))) idx
    = Some p.
Proof.
  intros Hal Hidx Hp.
  pose proof (render_hoc_cases s d' data config f Hal) as H. cbv zeta in H.
  destruct (findIndex (domArr (hoc s)) d') as [i|].
  - destruct H as [-> | ->]; auto.
  - destruct (getDom (hoc s) d' data config f (world s)) as [[q|e] w];
      rewrite H; auto. simpl. split.
    + now apply findIndex_app.
    + rewrite nth_error_app1; auto. apply nth_error_Some. congruence.
Qed.

(** X2.  The instance of a registered target is fixed: after any run of
    render calls, for whatever targets and whether they return or raise,
    the target has the same index and the same instance, and every render
    for it that returns, returns that instance. *)
Theorem registered_instance_is_stable s d idx p rs :
  aligned (hoc s) ->
  findIndex (domArr (hoc s)) d = Some idx ->
  nth_error (chartPlotArr (hoc s)) idx = Some p ->
  let s' := Run rs s in
  findIndex (domArr (hoc s')) d = Some idx /\
  nth_error (chartPlotArr (hoc s')) idx = Some p /\
  forall data config f r,
    fst (Render d data config f s') = Ok r -> r = Some p.
Proof.
  revert s. induction rs as [|r rs IH]; intros s Hal Hidx Hp; cbv zeta.
  - simpl. repeat split; auto. intros data config f r0 Hr.
    destruct (render_effect updateConfig plot_render s d data config f Hal)
      as (o & w & evs & Hrun & H).
    rewrite Hidx in H. destruct H as (p' & Hp' & Hret & _).
    rewrite Hrun in Hr. simpl in Hr. rewrite (Hret r0 Hr). congruence.
  - simpl.
    destruct (render_keeps_entry s d idx p (req_dom r) (req_data r)
                (req_config r) (req_formatConfig r) Hal Hidx Hp) as [Hi' Hp'].
    apply IH; auto. now apply render_aligned.
Qed.

Lemma register_all_step arr d ds :
  register_all arr (d :: ds)
  = register_all (if mem d arr then arr else arr ++ [d]) ds.
Proof. reflexivity. Qed.

(** From a state whose create function never raises: where the targets
    end up, and how often the create function is called for each. *)
Lemma run_creates_once rs :
  forall s,
    aligned (hoc s) -> never_raises (getDom (hoc s)) ->
    domArr (hoc (Run rs s)) = register_all (domArr (hoc s)) (map req_dom rs) /\
    exists evs,
      trace (Run rs s) = (trace s ++ evs)%list /\
      forall d,
        count (is_getDom_for d) evs =
        if mem d (domArr (hoc s)) then 0
        else if mem d (map req_dom rs) then 1 else 0.
Proof.
  induction rs as [|r rs IH]; intros s Hal Hnr.
  - simpl. split; auto. exists []. rewrite app_nil_r. split; auto.
    intros d. now destruct (mem d (domArr (hoc s))).
  - cbn [run map]. rewrite register_all_step.
    set (s1 := snd (render_request updateConfig plot_render r s)).
    assert (Hal1 : aligned (hoc s1)) by now apply render_aligned.
    assert (Hnr1 : never_raises (getDom (hoc s1))).
    { destruct (render_same_functions s (req_dom r) (req_data r)
                  (req_config r) (req_formatConfig r) Hal) as (E & _).
      unfold s1, render_request. now rewrite E. }
    destruct (IH s1 Hal1 Hnr1) as (Hdom & evs2 & Ht2 & Hc2).
    destruct (render_effect updateConfig plot_render s (req_dom r)
                (req_data r) (req_config r) (req_formatConfig r) Hal)
      as (o & w & evs1 & Hrun & H).
    pose proof (render_hoc_cases s (req_dom r) (req_data r) (req_config r)
                  (req_formatConfig r) Hal) as Hh. cbv zeta in Hh.
    fold (render_request updateConfig plot_render r s) in Hrun, Hh.
    fold s1 in Hh.
    assert (Ht1 : trace s1 = (trace s ++ evs1)%list)
      by (unfold s1; now rewrite Hrun).
    rewrite (mem_findIndex (req_dom r) (domArr (hoc s))).
    destruct (findIndex (domArr (hoc s)) (req_dom r)) as [idx|] eqn:Hidx.
    + assert (Hd1 : domArr (hoc s1) = domArr (hoc s))
        by (destruct Hh as [-> | ->]; reflexivity).
      assert (Hng : Forall (fun ev => is_getDom ev = false) evs1).
      { destruct H as (p & _ & _ & H).
        destruct (isEqual (nth idx (dataArr (hoc s)) VUndef) (req_data r)).
        - destruct H as (-> & _). constructor.
        - apply H. }
      split; [now rewrite Hdom, Hd1|].
      exists (evs1 ++ evs2)%list. split; [now rewrite Ht2, Ht1, app_assoc|].
      intros d. rewrite count_app, Hc2, Hd1.
      rewrite (count_none (is_getDom_for d) evs1)
        by (eapply Forall_impl; [|exact Hng];
            intros ev; apply getDom_for_is_getDom).
      cbn [mem existsb]. fold (mem d (map req_dom rs)).
      destruct (mem d (domArr (hoc s))) eqn:M; auto.
      destruct (d =? req_dom r)%nat eqn:E; auto.
      apply Nat.eqb_eq in E. subst d.
      rewrite mem_findIndex, Hidx in M. discriminate.
    + destruct (Hnr (req_dom r) (req_data r) (req_config r)
                  (req_formatConfig r) (world s)) as (p & w' & Hcreate).
      rewrite Hcreate in Hh.
      assert (Hd1 : domArr (hoc s1) = (domArr (hoc s) ++ [req_dom r])%list)
        by (rewrite Hh; reflexivity).
      destruct H as [-> _].
      split; [now rewrite Hdom, Hd1|].
      eexists. split; [rewrite Ht2, Ht1, <- app_assoc; reflexivity|].
      intros d. rewrite count_app, Hc2, Hd1, mem_app.
      unfold count at 1. cbn [filter is_getDom_for].
      cbn [mem existsb]. fold (mem d (map req_dom rs)).
      rewrite (Nat.eqb_sym (req_dom r) d).
      destruct (mem d (domArr (hoc s))) eqn:M; cbn [orb].
      * destruct (d =? req_dom r)%nat eqn:E; auto.
        apply Nat.eqb_eq in E. subst d.
        rewrite mem_findIndex, Hidx in M. discriminate.
      * destruct (d =? req_dom r)%nat; simpl; auto;
          destruct (mem d (map req_dom rs)); reflexivity.
Qed.

(** X3.  A wrapper made by [createSingleChart] with a create function
    that never raises calls it exactly once for each distinct target it is
    asked to render, over any run, and never for another; its registry
    lists the targets in the order in which they were first requested. *)
Theorem creates_once_per_target getDom0 cfg w rs :
  never_raises getDom0 ->
  let s := Run rs (fst (createSingleChart updateConfig plot_render
                          getDom0 cfg w)) in
  domArr (hoc s) = register_all [] (map req_dom rs) /\
  forall d,
    count (is_getDom_for d) (trace s)
    = if mem d (map req_dom rs) then 1 else 0.
Proof.
  intros Hnr. cbv zeta. cbn [createSingleChart fst].
  destruct (run_creates_once rs (initial getDom0 cfg w)) as (Hd & evs & Ht & Hc).
  - split; reflexivity.
  - exact Hnr.
  - split; [exact Hd|]. intros d. rewrite Ht. simpl. apply (Hc d).
Qed.

(** X4.  A wrapper made by [createSingleChart] never hands out
    [undefined]: after any run, a render that returns, returns a chart
    instance. *)
Theorem render_returns_an_instance getDom0 cfg w rs d data config f r :
  let s := Run rs (fst (createSingleChart updateConfig plot_render
                          getDom0 cfg w)) in
  fst (Render d data config f s) = Ok r -> exists p, r = Some p.
Proof.
  cbv zeta. cbn [createSingleChart fst]. intros Hr.
  assert (Hal : aligned (hoc (Run rs (initial getDom0 cfg w))))
    by (apply run_aligned; split; reflexivity).
  destruct (render_effect updateConfig plot_render _ d data config f Hal)
    as (o & w' & evs & Hrun & H).
  rewrite Hrun in Hr. simpl in Hr. subst o.
  destruct (findIndex _ d).
  - destruct H as (p & _ & Hret & _). exists p. now apply Hret.
  - destruct H as [_ (p & -> & _)]. now exists p.
Qed.

End HOCRuns.
(** ** The update branch of render *)

Lemma origin_call_events {realm : Realm} {World} (h : SingleChartHOC World) data config f w :
  snd (origin_call h data config f w) = [] \/
  snd (origin_call h data config f w) = [CallGetOriginConfig data config f].
Proof.
  unfold origin_call. destruct (getOriginConfig h) as [g|]; [|now left].
  destruct (g data config f w). now right.
Qed.

Section HOCUpdate.

Context {realm : Realm} {World : Type}.
Variable updateConfig : plot -> value -> callback World unit.
Variable plot_render : plot -> callback World unit.

Local Notation "'Render'" := (render updateConfig plot_render).

Implicit Types (s : state World) (d : dom) (data config : value)
  (f : option formatter) (p : plot).

(** Once the origin configuration is there and the merge is done,
    [updateConfig] is called, whatever comes after. *)
Lemma render_reaches_updateConfig s d data config f idx p oc w1 ev1 merged :
  findIndex (domArr (hoc s)) d = Some idx ->
  nth_error (chartPlotArr (hoc s)) idx = Some p ->
  isEqual (nth idx (dataArr (hoc s)) VUndef) data = false ->
  origin_call (hoc s) data config f (world s) = (Ok oc, w1, ev1) ->
  formatMergeConfig oc (config_or_empty config) f = Ok merged ->
  exists rest,
    trace (snd (Render d data config f s))
    = (trace s ++ ev1
         ++ CallUpdateConfig p (with_data data merged) :: rest)%list.
Proof.
  intros Hidx Hp Hneq Ho Hm.
  rewrite (render_changed updateConfig plot_render s d data config f idx
             Hidx Hneq).
  rewrite (render_update_run updateConfig plot_render s idx data config f p Hp).
  rewrite Ho. cbv zeta. rewrite Hm.
  destruct (updateConfig p (with_data data merged) w1) as [[u|e] w2].
  - destruct (plot_render p w2) as [[u'|e] w3].
    + destruct (stateManagerFunc (hoc s)) as [g|].
      * destruct (g (Some p) data config w3) as [[u''|e] w4];
          eexists; cbn [snd trace mk]; rewrite <- !app_assoc; reflexivity.
      * eexists; cbn [snd trace mk]; rewrite <- !app_assoc; reflexivity.
    + eexists; cbn [snd trace mk]; rewrite <- !app_assoc; reflexivity.
  - exists []. cbn [snd trace mk]. now rewrite <- !app_assoc.
Qed.

(** X5.  What [updateConfig] receives is [{data, ...merged}]: the
    properties of the merged configuration come after [data], so a [data]
    property of the merged configuration takes the place of the data
    passed to [render]; every other property is that of the merged
    configuration.  A merged configuration without own properties (a
    [formatConfig] that returned a number, say) leaves [{data}]. *)
Theorem updateConfig_argument s d data config f idx p oc w1 ev1 merged :
  findIndex (domArr (hoc s)) d = Some idx ->
  nth_error (chartPlotArr (hoc s)) idx = Some p ->
  isEqual (nth idx (dataArr (hoc s)) VUndef) data = false ->
  origin_call (hoc s) data config f (world s) = (Ok oc, w1, ev1) ->
  formatMergeConfig oc (config_or_empty config) f = Ok merged ->
  exists arg rest,
    trace (snd (Render d data config f s))
    = (trace s ++ ev1 ++ CallUpdateConfig p (VObj arg) :: rest)%list /\
    (own_props merged = [] -> arg = [("data", data)]) /\
    (forall pm, merged = VObj pm -> NoDup (keys pm) ->
       forall k,
         assoc_get k arg =
         if k =? "data"
         then Some (match assoc_get "data" pm with
                    | Some v => v
                    | None => data
                    end)
         else assoc_get k pm).
Proof.
  intros Hidx Hp Hneq Ho Hm.
  destruct (render_reaches_updateConfig s d data config f idx p oc w1 ev1
              merged Hidx Hp Hneq Ho Hm) as [rest Ht].
  exists (assign_props (own_props merged) [("data", data)]), rest.
  split; [exact Ht|]. split.
  - intros Hown. now rewrite Hown.
  - intros pm -> Hnd k. now apply spread_lookup.
Qed.

(** X6.  A wrapper without [getOriginConfig], rendering without
    [formatConfig]: when the data changed, [updateConfig] receives
    [{data}] alone for a config that is omitted or otherwise falsy, and
    [{data, ...config}] for a config record with ordinary names.  (Under
    a name that [Object.prototype] knows the empty origin configuration
    has a value to merge with, and [__proto__] is not copied.) *)
Theorem plain_update_argument s d data config idx p :
  findIndex (domArr (hoc s)) d = Some idx ->
  nth_error (chartPlotArr (hoc s)) idx = Some p ->
  isEqual (nth idx (dataArr (hoc s)) VUndef) data = false ->
  getOriginConfig (hoc s) = None ->
  (truthy config = false ->
   exists rest,
     trace (snd (Render d data config None s))
     = (trace s ++ CallUpdateConfig p (VObj [("data", data)]) :: rest)%list) /\
  (forall pc, config = VObj pc -> NoDup (keys pc) ->
   (forall k, In k (keys pc) -> ordinary k = true) ->
   exists rest,
     trace (snd (Render d data config None s))
     = (trace s
          ++ CallUpdateConfig p (VObj (assign_props pc [("data", data)]))
          :: rest)%list).
Proof.
  intros Hidx Hp Hneq Hnone.
  assert (Ho : origin_call (hoc s) data config None (world s)
               = (Ok (VObj []), world s, []))
    by (unfold origin_call; now rewrite Hnone).
  split.
  - intros Hfalsy.
    destruct (render_reaches_updateConfig s d data config None idx p
                (VObj []) (world s) [] (VObj []) Hidx Hp Hneq Ho)
      as [rest Ht].
    + unfold config_or_empty. rewrite Hfalsy. reflexivity.
    + exists rest. exact Ht.
  - intros pc -> Hnd Hord.
    destruct (render_reaches_updateConfig s d data (VObj pc) None idx p
                (VObj []) (world s) [] (VObj pc) Hidx Hp Hneq Ho)
      as [rest Ht].
    + unfold config_or_empty, formatMergeConfig. cbn [truthy].
      rewrite mergeConfig_over_primitive; auto.
      intros k Hin. split; [apply ordinary_accessor; auto|].
      rewrite op_get_ordinary by auto. reflexivity.
    + exists rest. exact Ht.
Qed.

(** X7.  A failure before the chart is touched.  When [getOriginConfig]
    raises, or the merge or [formatConfig] does, [render] raises the same
    exception without any call on a chart instance; the new data is stored
    all the same.  The merge raises [TypeError] whenever the origin
    configuration is [null] or [undefined] and [config || {}] has an own
    property under a name without accessor. *)
Theorem failure_before_chart s d data config f idx p :
  findIndex (domArr (hoc s)) d = Some idx ->
  nth_error (chartPlotArr (hoc s)) idx = Some p ->
  isEqual (nth idx (dataArr (hoc s)) VUndef) data = false ->
  (forall e w1 ev1,
     origin_call (hoc s) data config f (world s) = (Throw e, w1, ev1) ->
     Render d data config f s
     = (Throw e, mk (stored idx data (hoc s)) w1 (trace s ++ ev1)) /\
     forall q, count (on_plot q) ev1 = 0) /\
  (forall oc e w1 ev1,
     origin_call (hoc s) data config f (world s) = (Ok oc, w1, ev1) ->
     formatMergeConfig oc (config_or_empty config) f = Throw e ->
     Render d data config f s
     = (Throw e, mk (stored idx data (hoc s)) w1 (trace s ++ ev1)) /\
     forall q, count (on_plot q) ev1 = 0) /\
  (forall oc, nullish oc = true ->
     (exists k, In k (keys (own_props (config_or_empty config))) /\
                accessor k = false) ->
     formatMergeConfig oc (config_or_empty config) f = Throw TypeError).
Proof.
  intros Hidx Hp Hneq.
  assert (Hev : forall r w1 ev1,
            origin_call (hoc s) data config f (world s) = (r, w1, ev1) ->
            forall q, count (on_plot q) ev1 = 0).
  { intros r w1 ev1 Ho q.
    destruct (origin_call_events (hoc s) data config f (world s)) as [E | E];
      rewrite Ho in E; simpl in E; subst ev1; reflexivity. }
  split; [|split].
  - intros e w1 ev1 Ho. split; [|exact (Hev _ _ _ Ho)].
    rewrite (render_changed updateConfig plot_render s d data config f idx
               Hidx Hneq).
    rewrite (render_update_run updateConfig plot_render s idx data config f
               p Hp).
    now rewrite Ho.
  - intros oc e w1 ev1 Ho Hm. split; [|exact (Hev _ _ _ Ho)].
    rewrite (render_changed updateConfig plot_render s d data config f idx
               Hidx Hneq).
    rewrite (render_update_run updateConfig plot_render s idx data config f
               p Hp).
    rewrite Ho. cbv zeta. now rewrite Hm.
  - intros oc Hnull (k & Hin & Hacc). unfold formatMergeConfig, mergeConfig.
    rewrite (mergeConfig_nullish_origin _ (Data oc) _ Hnull).
    assert (Hk : In k (keys (object_assign []
                               (Data (config_or_empty config))))).
    { unfold object_assign. apply in_keys_assign_set; [intros k' []|].
      right. split; assumption. }
    destruct (keys (object_assign [] (Data (config_or_empty config))));
      [destruct Hk | reflexivity].
Qed.

(** X8.  A state manager that raises does so after the chart was given
    its configuration and repainted: [render] raises the same exception,
    the trace shows [updateConfig], the instance's render and the state
    manager, in this order, and the new data is stored. *)
Theorem stateManager_failure
    s d data config f idx p oc w1 ev1 merged w2 w3 g e w4 :
  findIndex (domArr (hoc s)) d = Some idx ->
  nth_error (chartPlotArr (hoc s)) idx = Some p ->
  isEqual (nth idx (dataArr (hoc s)) VUndef) data = false ->
  origin_call (hoc s) data config f (world s) = (Ok oc, w1, ev1) ->
  formatMergeConfig oc (config_or_empty config) f = Ok merged ->
  updateConfig p (with_data data merged) w1 = (Ok tt, w2) ->
  plot_render p w2 = (Ok tt, w3) ->
  stateManagerFunc (hoc s) = Some g ->
  g (Some p) data config w3 = (Throw e, w4) ->
  Render d data config f s
  = (Throw e,
     mk (stored idx data (hoc s)) w4
        (trace s ++ ev1
           ++ [CallUpdateConfig p (with_data data merged); CallRender p;
               CallStateManager (Some p) data config])).
Proof.
  intros Hidx Hp Hneq Ho Hm Hu Hr Hg Hsm.
  rewrite (render_changed updateConfig plot_render s d data config f idx
             Hidx Hneq).
  rewrite (render_update_run updateConfig plot_render s idx data config f
             p Hp).
  rewrite Ho. cbv zeta. rewrite Hm, Hu, Hr, Hg, Hsm.
  now rewrite <- !app_assoc.
Qed.

End HOCUpdate.
(** ** mergeConfig on the heap: what the result shares *)

Module SharingFacts.

Section SharingProgram.

Context {realm : Realm}.

Import Heap Sharing.
Local Open Scope list_scope.

















End SharingProgram.

End SharingFacts.

Section SharingExamples.

Local Existing Instance Builtins.realm.


End SharingExamples.

(** ** mergeConfig at work

    The examples run in [Builtins.realm], where [Object.prototype] has its
    functions and the accessor [__proto__]. *)

Section MergeExamples.

Local Existing Instance Builtins.realm.







Lemma mergeConfig_empty_witness :
  mergeConfig (VObj [("a", VNum 1); ("toString", VArr [VNum 2])]) (VObj [])
  = Ok (VObj [("a", VNum 1); ("toString", VArr [VNum 2])]) /\
  mergeConfig (VObj []) (VObj [("a", VNum 1); ("b", VObj [])])
  = Ok (VObj [("a", VNum 1); ("b", VObj [])]).
Proof.
  split.
  - apply (mergeConfig_empty [("a", VNum 1); ("toString", VArr [VNum 2])]).
    + repeat constructor; simpl; intuition discriminate.
    + simpl. intros k [<- | [<- | []]]; reflexivity.
  - apply (mergeConfig_empty [("a", VNum 1); ("b", VObj [])]).
    + repeat constructor; simpl; intuition discriminate.
    + simpl. intros k [<- | [<- | []]]; reflexivity.
Defined.


Lemma mergeConfig_idempotent_witness :
  let cfg := VObj [("a", VObj [("x", VNum 1)]); ("b", VNum 0)] in
  mergeConfig cfg cfg = Ok cfg.
Proof.
  cbv zeta. apply mergeConfig_idempotent.
  - repeat constructor; simpl; intuition discriminate.
  - reflexivity.
Defined.

Lemma mergeConfig_absorbs_witness :
  mergeConfig
    (VObj [("a", VObj [("x", VNum 1); ("y", VNum 3)]); ("b", VStr "s")])
    (VObj [("a", VObj [("y", VNum 3)])])
  = Ok (VObj [("a", VObj [("x", VNum 1); ("y", VNum 3)]); ("b", VStr "s")]).
Proof.
  apply (mergeConfig_absorbs
           (VObj [("a", VObj [("x", VNum 1); ("y", VNum 2)]); ("b", VStr "s")])
           [("a", VObj [("y", VNum 3)])]).
  - repeat constructor; simpl; intuition discriminate.
  - reflexivity.
  - reflexivity.
  - reflexivity.
  - reflexivity.
Defined.

Lemma target_leaves_win_witness :
  get_path ["a"; "y"]
    (VObj [("a", VObj [("x", VNum 1); ("y", VNum 3)])])
  = Some (VNum 3).
Proof.
  apply (target_leaves_win ["a"; "y"] [("a", VObj [("y", VNum 3)])]
           (VObj [("a", VObj [("x", VNum 1); ("y", VNum 2)])])).
  - repeat constructor; simpl; intuition discriminate.
  - reflexivity.
  - reflexivity.
  - reflexivity.
  - reflexivity.
  - discriminate.
  - reflexivity.
  - reflexivity.
Defined.

Lemma origin_leaves_survive_witness :
  get_path ["a"; "x"]
    (VObj [("a", VObj [("x", VNum 1); ("y", VNum 3)])])
  = Some (VNum 1).
Proof.
  apply (origin_leaves_survive ["a"; "x"]
           [("a", VObj [("x", VNum 1); ("y", VNum 2)])]
           [("a", VObj [("y", VNum 3)])]).
  - repeat constructor; simpl; intuition discriminate.
  - repeat constructor; simpl; intuition discriminate.
  - reflexivity.
  - reflexivity.
  - reflexivity.
  - reflexivity.
  - reflexivity.
Defined.

End MergeExamples.

(** ** The further properties at work in the small world *)

Section WrapperExamples.

Local Existing Instance Builtins.realm.

Lemma create_never_raises : never_raises Example.create.
Proof. intros d data config f w. eexists. eexists. reflexivity. Defined.

Lemma first_render_registers_witness :
  fst (render Example.update Example.repaint 1 Example.sales VUndef None
         (initial Example.create None 0)) = Ok (Some 101).
Proof.
  destruct (first_render_registers Example.update Example.repaint
              (initial Example.create None 0) 1 Example.sales VUndef None
              101 0) as (Hres & _).
  - split; reflexivity.
  - reflexivity.
  - reflexivity.
  - exact Hres.
Defined.

Lemma registered_instance_is_stable_witness :
  nth_error
    (chartPlotArr
       (hoc (run Example.update Example.repaint
               [Scenario.request 2 Example.sales;
                Scenario.request 1 Example.sales_changed]
               Example.started))) 0
  = Some 101.
Proof.
  destruct (registered_instance_is_stable Example.update Example.repaint
              Example.started 1 0 101
              [Scenario.request 2 Example.sales;
               Scenario.request 1 Example.sales_changed])
    as (_ & Hp & _).
  - split; reflexivity.
  - reflexivity.
  - reflexivity.
  - exact Hp.
Defined.

Lemma creates_once_per_target_witness :
  count (is_getDom_for 1)
    (trace (run Example.update Example.repaint
              [Scenario.request 1 Example.sales;
               Scenario.request 2 Example.sales;
               Scenario.request 1 Example.sales_changed]
              (initial Example.create None 0)))
  = 1.
Proof.
  destruct (creates_once_per_target Example.update Example.repaint
              Example.create None 0
              [Scenario.request 1 Example.sales;
               Scenario.request 2 Example.sales;
               Scenario.request 1 Example.sales_changed]
              create_never_raises) as [_ Hc].
  exact (Hc 1).
Defined.

Lemma render_returns_an_instance_witness :
  exists p,
    fst (render Example.update Example.repaint 2 Example.sales VUndef None
           (run Example.update Example.repaint
              [Scenario.request 1 Example.sales]
              (initial Example.create None 0)))
    = Ok (Some p).
Proof.
  destruct (render_returns_an_instance Example.update Example.repaint
              Example.create None 0 [Scenario.request 1 Example.sales]
              2 Example.sales VUndef None (Some 102)) as [p Hp].
  - reflexivity.
  - exists p. rewrite <- Hp. reflexivity.
Defined.

Lemma updateConfig_argument_witness :
  exists arg rest,
    trace (snd (render Example.update Example.repaint 1 Example.sales_changed
                  (VObj [("data", VNum 9)]) None Example.started))
    = (trace Example.started ++ [] ++ CallUpdateConfig 101 (VObj arg) :: rest)%list /\
    assoc_get "data" arg = Some (VNum 9).
Proof.
  destruct (updateConfig_argument Example.update Example.repaint
              Example.started 1 Example.sales_changed
              (VObj [("data", VNum 9)]) None 0 101 (VObj []) 0 []
              (VObj [("data", VNum 9)]))
    as (arg & rest & Ht & _ & Hk); try reflexivity.
  exists arg, rest. split; [exact Ht|].
  apply (Hk [("data", VNum 9)] eq_refl).
  repeat constructor; simpl; intuition discriminate.
Defined.

Lemma plain_update_argument_witness :
  (exists rest,
     trace (snd (render Example.update Example.repaint 1
                   Example.sales_changed VUndef None Example.started))
     = (trace Example.started
          ++ CallUpdateConfig 101 (VObj [("data", Example.sales_changed)])
          :: rest)%list) /\
  (exists rest,
     trace (snd (render Example.update Example.repaint 1
                   Example.sales_changed (VObj [("color", VStr "red")]) None
                   Example.started))
     = (trace Example.started
          ++ CallUpdateConfig 101
               (VObj [("data", Example.sales_changed);
                      ("color", VStr "red")])
          :: rest)%list).
Proof.
  split.
  - destruct (plain_update_argument Example.update Example.repaint
                Example.started 1 Example.sales_changed VUndef 0 101)
      as [Hfalsy _]; try reflexivity.
    apply Hfalsy. reflexivity.
  - destruct (plain_update_argument Example.update Example.repaint
                Example.started 1 Example.sales_changed
                (VObj [("color", VStr "red")]) 0 101)
      as [_ Hrec]; try reflexivity.
    apply (Hrec [("color", VStr "red")] eq_refl).
    + repeat constructor; simpl; intuition discriminate.
    + simpl. intros k [<- | []]. reflexivity.
Defined.

Lemma failure_before_chart_witness :
  render Example.update Example.repaint 1 Example.sales_changed
    (VObj [("color", VStr "red")]) None Scenario.no_origin
  = (Throw TypeError,
     mk (stored 0 Example.sales_changed (hoc Scenario.no_origin)) 0
        (trace Scenario.no_origin
           ++ [CallGetOriginConfig Example.sales_changed
                 (VObj [("color", VStr "red")]) None])).
Proof.
  destruct (failure_before_chart Example.update Example.repaint
              Scenario.no_origin 1 Example.sales_changed
              (VObj [("color", VStr "red")]) None 0 101
              eq_refl eq_refl eq_refl)
    as (_ & Hmerge & Hnull).
  apply (Hmerge VNull TypeError 0
           [CallGetOriginConfig Example.sales_changed
              (VObj [("color", VStr "red")]) None]).
  - reflexivity.
  - apply Hnull; [reflexivity|].
    exists "color". split; [simpl; auto | reflexivity].
Defined.

Lemma stateManager_failure_witness :
  fst (render Example.update Example.repaint 1 Example.sales_changed VUndef
         None Scenario.bad_manager)
  = Throw (Thrown (VStr "store is closed")).
Proof.
  rewrite (stateManager_failure Example.update Example.repaint
             Scenario.bad_manager 1 Example.sales_changed VUndef None 0 101
             (VObj []) 0 [] (VObj []) 0 1 Scenario.manage_fails
             (Thrown (VStr "store is closed")) 1); reflexivity.
Defined.

End WrapperExamples.
